(** * Redux as a supervisor: the station registry, its router and the binding hook

    A verification development for [src/App.tsx].  The Redux reducer
    [stationsReducer] routes events to stations, [stationReducer] delivers an
    event to one station, and the hook [useSupervisedMachine] registers a
    machine, attaches the live interpreter, normalises outgoing events and
    drains the pending queue.

    Modelling conventions.
    - An event is a JavaScript object; the record [EventOf] keeps the
      properties the code reads ([type], [to], [events], [payload]) and the
      remaining own properties as [fields].  A property that is missing is
      [None] (or [ToUndefined] for [to]).
    - [Stations] is [Record<string, Station>], used as a map from identity to
      station: a finite map over the object's own properties.  A property
      access [state[key]] also finds what every object inherits from
      [Object.prototype]: [getProperty].
    - xstate is an external library, the interface [Xstate].  A machine
      configuration is an abstract [XState]; [transition] is what one
      [service.send(event)] computes from the machine, the interpreter's
      current configuration and the event: the next configuration and the
      [changed] flag that the returned state carries.
    - An interpreter is a mutable object: [AnyService] is a reference into
      [Services], and [send] updates the referenced interpreter.
    - A thrown [TypeError] is the result [None].  What a call has sent to
      the interpreters before it throws stays sent: [stationsReducerAt]
      returns the interpreters in either case.
    - The parameter that the source calls [state] is called [station] in
      [stationReducer] and [stations] in [stationsReducer], because [state]
      is also a property of a station. *)

From Stdlib Require Import String List Bool Arith Lia.
From stdpp Require Import base option gmap strings list fin_maps.

#[local] Set Warnings "-register-all".
#[local] Open Scope string_scope.

(** ** Values *)

(** [to?: string | string[]] *)
Inductive Target : Type :=
| ToUndefined
| ToString (id : string)
| ToArray (ids : list string).

(** [array.reduce(callback, initialValue)], with a callback that may throw. *)
Fixpoint reduce {A B : Type} (callback : A -> B -> option A)
    (array : list B) (initialValue : A) : option A :=
  match array with
  | [] => Some initialValue
  | next :: rest =>
      match callback initialValue next with
      | Some acc => reduce callback rest acc
      | None => None
      end
  end.

(** The property key that a value of [event.to] denotes in [state[event.to]]:
    a string is its own key, [undefined] is the key ["undefined"], an array
    is its elements joined by commas (the router expands an array before any
    property access, so that case is never used). *)
Definition propertyKey (to : Target) : string :=
  match to with
  | ToUndefined => "undefined"
  | ToString id => id
  | ToArray ids => String.concat "," ids
  end.

(** JavaScript truthiness of [event.to], as [event.to || id] tests it: the
    empty string and [undefined] are falsy, every array is truthy. *)
Definition truthy (to : Target) : bool :=
  match to with
  | ToUndefined => false
  | ToString id => negb (String.eqb id "")
  | ToArray _ => true
  end.

(** The properties that every object inherits from [Object.prototype].  Each
    of them is a function, and [__proto__] is [Object.prototype] itself: a
    truthy value that has neither a [service], nor an [eventQueue], nor a
    [state]. *)
Definition objectPrototype : list string :=
  ["constructor"; "hasOwnProperty"; "isPrototypeOf"; "propertyIsEnumerable";
   "toLocaleString"; "toString"; "valueOf"; "__proto__";
   "__defineGetter__"; "__defineSetter__";
   "__lookupGetter__"; "__lookupSetter__"].

Definition inherited (key : string) : bool :=
  existsb (String.eqb key) objectPrototype.

(** A reference to an [X.Interpreter] object. *)
Definition AnyService : Type := nat.

(** Events and stations.  A [Station] (lines 57-68) holds a queue of events
    and a registration event holds a station, so the two types are mutual. *)
Section Objects.

Variables XState AnyMachine : Type.

Inductive EventOf : Type := mkEvent {
  type : string;
  to : Target;
  events : option (list EventOf);
  payload : option StationOf;
  fields : list (string * string) }
with StationOf : Type := mkStation {
  id : string;
  machine : AnyMachine;
  service : option AnyService;
  eventQueue : list EventOf;
  state : XState }.

(** The interpreter behind a reference: its machine and its current
    configuration. *)
Record InterpreterOf : Type := mkInterpreter {
  imachine : AnyMachine;
  icurrent : XState }.

End Objects.

Arguments mkEvent {XState AnyMachine} type to events payload fields.
Arguments type {XState AnyMachine} e.
Arguments to {XState AnyMachine} e.
Arguments events {XState AnyMachine} e.
Arguments payload {XState AnyMachine} e.
Arguments fields {XState AnyMachine} e.
Arguments mkStation {XState AnyMachine} id machine service eventQueue state.
Arguments id {XState AnyMachine} s.
Arguments machine {XState AnyMachine} s.
Arguments service {XState AnyMachine} s.
Arguments eventQueue {XState AnyMachine} s.
Arguments state {XState AnyMachine} s.
Arguments mkInterpreter {XState AnyMachine} imachine icurrent.
Arguments imachine {XState AnyMachine} i.
Arguments icurrent {XState AnyMachine} i.

(** What the supervisor uses of xstate. *)
Class Xstate : Type := {
  XState : Type;
  AnyMachine : Type;
  (** [machine.id] *)
  machineId : AnyMachine -> string;
  (** [machine.initialState] *)
  initialState : AnyMachine -> XState;
  (** the state that [service.send(event)] returns, and its [changed] flag *)
  transition : AnyMachine -> XState -> EventOf XState AnyMachine -> XState * bool }.

Abbreviation Event := (EventOf XState AnyMachine).
Abbreviation Station := (StationOf XState AnyMachine).
Abbreviation Stations := (gmap string Station).
Abbreviation Interpreter := (InterpreterOf XState AnyMachine).

(** ** The router *)

Section Supervisor.

Context `{X : Xstate}.

Definition Services : Type := AnyService -> Interpreter.

(** Object spreads that replace one property. *)
Definition withTo (event : Event) (t : Target) : Event :=
  mkEvent (type event) t (events event) (payload event) (fields event).

Definition withState (station : Station) (next : XState) : Station :=
  mkStation (id station) (machine station) (service station)
    (eventQueue station) next.

Definition withEventQueue (station : Station) (queue : list Event) : Station :=
  mkStation (id station) (machine station) (service station) queue
    (state station).

Definition withService (station : Station) (svc : option AnyService) : Station :=
  mkStation (id station) (machine station) svc (eventQueue station)
    (state station).

(** [{ type: "BATCHED", events }] *)
Definition batched (evs : list Event) : Event :=
  mkEvent "BATCHED" ToUndefined (Some evs) None [].

(** [{ type: "REGISTER_MACHINE", payload }] *)
Definition registerMachine (station : Station) : Event :=
  mkEvent "REGISTER_MACHINE" ToUndefined None (Some station) [].

(** Lines 76 and 78. *)
Definition isBatchedEvent (event : Event) : bool :=
  String.eqb (type event) "BATCHED".

Definition isRegisterEvent (event : Event) : bool :=
  String.eqb (type event) "REGISTER_MACHINE".

(** [service.send(event)]: the interpreter moves to the next configuration
    and returns it. *)
Definition send (services : Services) (svc : AnyService) (event : Event)
    : Services * (XState * bool) :=
  let next := transition (imachine (services svc)) (icurrent (services svc)) event in
  (fun r => if Nat.eqb r svc
            then mkInterpreter (imachine (services svc)) (fst next)
            else services r,
   next).

(** [stationReducer], lines 86-107. *)
Definition stationReducer (services : Services) (station : Station)
    (event : Event) : Services * Station :=
  match service station with
  | Some svc =>
      let '(services', (next, changed)) := send services svc event in
      if changed then (services', withState station next)
      else (services', station)
  | None =>
      (services, withEventQueue station (eventQueue station ++ [event]))
  end.

(** [stations[key]]: the own property of the registry, or else the value
    that the registry inherits under that name, or else [undefined]. *)
Inductive Property : Type :=
| Own (station : Station)
| Inherited
| Undefined.

Definition getProperty (stations : Stations) (key : string) : Property :=
  match stations !! key with
  | Some station => Own station
  | None => if inherited key then Inherited else Undefined
  end.

(** What a call of the router leaves behind: the interpreters as its calls
    of [send] left them, and the registry that it returned, or [None] when
    it threw. *)
Definition Outcome : Type := Services * option Stations.

(** [array.reduce(callback, initialValue)] for a callback that sends to
    interpreters and may throw: a throw ends the fold. *)
Fixpoint reduceSending {B : Type}
    (callback : Services -> Stations -> B -> Outcome)
    (array : list B) (services : Services) (initialValue : Stations) : Outcome :=
  match array with
  | [] => (services, Some initialValue)
  | next :: rest =>
      match callback services initialValue next with
      | (services', Some acc) => reduceSending callback rest services' acc
      | (services', None) => (services', None)
      end
  end.

(** [stationsReducer], lines 124-158.  The recursion of the source is not
    structural (the array case calls the reducer on a batch that it has just
    built), so the function descends on a call-depth budget; [depth] below
    is a budget that always suffices, and [stationsReducer_unfold] gives the
    equation of the source.

    In the last case (lines 148-153) [state[event.to]] is truthy for an own
    entry and for an inherited value.  [stationReducer] applied to an
    inherited value finds no [service], so it takes the parking branch, and
    the spread of the missing [eventQueue] (line 104) throws. *)
Fixpoint stationsReducerAt (budget : nat) (services : Services)
    (stations : Stations) (event : Event) : Outcome :=
  match budget with
  | 0 => (services, None)
  | S budget' =>
      if isBatchedEvent event then
        match events event with
        | Some evs => reduceSending (stationsReducerAt budget') evs services stations
        | None => (services, None)
        end
      else if isRegisterEvent event then
        match payload event with
        | Some station => (services, Some (<[id station := station]> stations))
        | None => (services, None)
        end
      else
        match to event with
        | ToArray ids =>
            let evs := map (fun id => withTo event (ToString id)) ids in
            stationsReducerAt budget' services stations (batched evs)
        | _ =>
            match getProperty stations (propertyKey (to event)) with
            | Own station =>
                let '(services', station') := stationReducer services station event in
                (services', Some (<[propertyKey (to event) := station']> stations))
            | Inherited => (services, None)
            | Undefined => (services, Some stations)
            end
        end
  end.

(** A budget that suffices for [event]: a batch needs one level more than
    its deepest member, an event addressed to an array three levels (itself,
    the batch it builds, and the copies), any other event one. *)
Fixpoint depth (event : Event) : nat :=
  if isBatchedEvent event then
    match events event with
    | Some evs => S (list_max (map depth evs))
    | None => 1
    end
  else if isRegisterEvent event then 1
  else match to event with
       | ToArray _ => 3
       | _ => 1
       end.

Definition outcome (services : Services) (stations : Stations)
    (event : Event) : Outcome :=
  stationsReducerAt (depth event) services stations event.

(** The value that a call returns, or [None] when it threw. *)
Definition returned (result : Outcome) : option (Services * Stations) :=
  match result with
  | (services, Some stations) => Some (services, stations)
  | (_, None) => None
  end.

Definition stationsReducer (services : Services) (stations : Stations)
    (event : Event) : option (Services * Stations) :=
  returned (outcome services stations event).

(** The left fold of the router over a list of events: each step's output
    is the next step's input, and a step that throws ends the fold. *)
Definition applyInOrder (evs : list Event)
    (start : option (Services * Stations)) : option (Services * Stations) :=
  fold_left
    (fun acc next =>
       match acc with
       | Some (services, stations) => stationsReducer services stations next
       | None => None
       end)
    evs start.

(** An event of the third kind of [DispatchedSupervisedEvent]: neither a
    batch nor a registration. *)
Definition isPlain (event : Event) : bool :=
  negb (isBatchedEvent event) && negb (isRegisterEvent event).

(** An event that has what the router reads of it: a batch has its
    [events], whose members are well formed in turn, and a registration has
    its [payload]. *)
Fixpoint wellFormed (event : Event) : bool :=
  if isBatchedEvent event then
    match events event with
    | Some evs => forallb wellFormed evs
    | None => false
    end
  else if isRegisterEvent event then
    match payload event with
    | Some _ => true
    | None => false
    end
  else true.

(** Whether the router, applied to [event], can reach its registration
    case. *)
Fixpoint registers (event : Event) : bool :=
  if isBatchedEvent event then
    match events event with
    | Some evs => existsb registers evs
    | None => false
    end
  else isRegisterEvent event.

(** Whether no property access of the router, applied to [event], uses the
    name of an inherited property. *)
Fixpoint avoidsInherited (event : Event) : bool :=
  if isBatchedEvent event then
    match events event with
    | Some evs => forallb avoidsInherited evs
    | None => true
    end
  else if isRegisterEvent event then true
  else match to event with
       | ToArray ids => forallb (fun id => negb (inherited id)) ids
       | t => negb (inherited (propertyKey t))
       end.

(** ** The store and the hook *)

(** The Redux store (its state is the registry), the interpreters that
    exist, and the next free interpreter reference. *)
Record World : Type := mkWorld {
  interpreters : Services;
  store : Stations;
  nextService : AnyService }.

(** [dispatch], line 168: the store replaces its state by the router's
    result.  When the router throws, so does [dispatch]. *)
Definition dispatch (event : Event) (w : World) : option World :=
  match stationsReducer (interpreters w) (store w) event with
  | Some (services, stations) => Some (mkWorld services stations (nextService w))
  | None => None
  end.

(** What a component may pass to its send function
    ([SupervisedEvent], lines 39-43). *)
Inductive Sendable : Type :=
| TypeName (name : string)
| EventObject (event : Event).

Inductive SupervisedEvent : Type :=
| Single (event : Sendable)
| Batch (items : list Sendable).

(** [dispatchableEvent], lines 239-246 and 262-269. *)
Definition dispatchableEvent (id : string) (event : Sendable) : Event :=
  match event with
  | TypeName name => mkEvent name (ToString id) None None []
  | EventObject event =>
      withTo event (if truthy (to event) then to event else ToString id)
  end.

(** The event that [sendToStore] hands to [dispatch], lines 235-271. *)
Definition dispatched (id : string) (event : SupervisedEvent) : Event :=
  match event with
  | Batch items => batched (map (dispatchableEvent id) items)
  | Single event => dispatchableEvent id event
  end.

Definition sendToStore (id : string) (event : SupervisedEvent) (w : World)
    : option World :=
  dispatch (dispatched id event) w.

(** The state after an event handler has called the send function: when
    [dispatch] throws, the store keeps its state, the interpreters keep what
    was sent to them before the throw, and the application goes on. *)
Definition afterSend (id : string) (event : SupervisedEvent) (w : World) : World :=
  let '(services, result) := outcome (interpreters w) (store w) (dispatched id event) in
  mkWorld services (default (store w) result) (nextService w).

(** The shape that the router expects: an event with a target, or a batch
    of events that have one. *)
Definition hasTarget (event : Event) : bool :=
  match to event with
  | ToUndefined => false
  | _ => true
  end.

Definition uniformlyShaped (event : Event) : Prop :=
  hasTarget event = true
  \/ exists evs, event = batched evs /\ Forall (fun e => hasTarget e = true) evs.

(** Lines 187-201: the object that the render works with.  [isNew] is set
    only when [store.getState()[id]] is falsy; an inherited value is truthy,
    so it is taken for the station although it is none. *)
Inductive Rendered : Type :=
| Known (station : Station)
| Foreign
| Fresh (station : Station).

Definition maybeStation (machine : AnyMachine) (w : World) : Rendered :=
  match getProperty (store w) (machineId machine) with
  | Own station => Known station
  | Inherited => Foreign
  | Undefined =>
      Fresh (mkStation (machineId machine) machine None [] (initialState machine))
  end.

(** Lines 205-213. *)
Definition registerEffect (machine : AnyMachine) (w : World) : option World :=
  match maybeStation machine w with
  | Fresh station => dispatch (registerMachine station) w
  | _ => Some w
  end.

(** Line 216, [useMachine(machine, { state })]: a new interpreter, started
    from [seed]. *)
Definition useMachine (machine : AnyMachine) (seed : XState) (w : World)
    : AnyService * World :=
  (nextService w,
   mkWorld (fun r => if Nat.eqb r (nextService w)
                     then mkInterpreter machine seed
                     else interpreters w r)
           (store w) (S (nextService w))).

(** Lines 219-221: [store.getState()[id].service = service], an assignment
    to the station object that the store holds.  On [undefined] it throws.
    On an inherited value the assignment writes a property of that value and
    the registry stays as it is; no dispatch sees what was written, because
    the drain effect of the same commit throws and the cleanup writes
    [undefined] over it. *)
Definition attachEffect (id : string) (svc : AnyService) (w : World)
    : option World :=
  match getProperty (store w) id with
  | Own station =>
      Some (mkWorld (interpreters w)
              (<[id := withService station (Some svc)]> (store w))
              (nextService w))
  | Inherited => Some w
  | Undefined => None
  end.

(** Lines 222-224, the cleanup: [store.getState()[id].service = undefined]. *)
Definition detachEffect (id : string) (w : World) : option World :=
  match getProperty (store w) id with
  | Own station =>
      Some (mkWorld (interpreters w)
              (<[id := withService station None]> (store w))
              (nextService w))
  | Inherited => Some w
  | Undefined => None
  end.

(** Lines 278-285.  The station object of the render is the one the store
    holds under [id], so [splice] empties the queue of the store's station
    before the batch is dispatched.  An inherited value has no [eventQueue],
    and reading the [length] of it throws; a station that the render has
    made has an empty queue. *)
Definition drainEffect (id : string) (w : World) : option World :=
  match getProperty (store w) id with
  | Own station =>
      if (0 <? length (eventQueue station))%nat then
        let queue := eventQueue station in
        dispatch (batched queue)
          (mkWorld (interpreters w)
             (<[id := withEventQueue station []]> (store w))
             (nextService w))
      else Some w
  | Inherited => None
  | Undefined => Some w
  end.

(** Lines 187-216, the render: the interpreter is created from the latest
    known state, [maybeStation.state]; an inherited value has no [state], and
    the interpreter starts from the machine's initial state. *)
Definition render (machine : AnyMachine) (w : World) : AnyService * World :=
  useMachine machine
    (match maybeStation machine w with
     | Known station | Fresh station => state station
     | Foreign => initialState machine
     end) w.

(** Mounting a component that uses [machine]: the interpreter is created
    during the render and attached afterwards. *)
Definition attach (machine : AnyMachine) (w : World) : option World :=
  let '(svc, w1) := render machine w in
  attachEffect (machineId machine) svc w1.

(** [useSupervisedMachine], lines 179-289, on the first render of a
    component: the render and then its effects, in the order of the source. *)
Definition useSupervisedMachine (machine : AnyMachine) (w : World)
    : option World :=
  let '(svc, w1) := render machine w in
  match registerEffect machine w1 with
  | Some w2 =>
      match attachEffect (machineId machine) svc w2 with
      | Some w3 => drainEffect (machineId machine) w3
      | None => None
      end
  | None => None
  end.

(** ** Reachable states *)

(** The effects and handlers of the source, one by one. *)
Inductive Effect : Type :=
| Register (machine : AnyMachine)
| Attach (machine : AnyMachine)
| Detach (id : string)
| Drain (id : string)
| Sent (id : string) (event : SupervisedEvent).

Definition run (e : Effect) (w : World) : option World :=
  match e with
  | Register machine => registerEffect machine w
  | Attach machine => attach machine w
  | Detach id => detachEffect id w
  | Drain id => drainEffect id w
  | Sent id event => sendToStore id event w
  end.

(** The steps with the effects of one commit taken together. *)
Inductive Commit : Type :=
| Mount (machine : AnyMachine)
| Unmount (id : string)
| Send (id : string) (event : SupervisedEvent).

(** A commit that returns: its result, or [None] when an effect or the
    handler throws. *)
Definition attempt (c : Commit) (w : World) : option World :=
  match c with
  | Mount machine => useSupervisedMachine machine w
  | Unmount id => detachEffect id w
  | Send id event => sendToStore id event w
  end.

(** The state after a commit.  A handler that throws leaves the state
    [afterSend] behind and the application goes on.  An effect that throws
    ends the application (no error boundary is rendered, line 436, so React
    unmounts the tree), and the commit has no state after it; the states
    that its effects have passed through before the throw are states of
    [reachable] below. *)
Definition commit (c : Commit) (w : World) : option World :=
  match c with
  | Send id event => Some (afterSend id event w)
  | _ => attempt c w
  end.

(** Components send machine events; a registration is dispatched by the
    hook only. *)
Definition sendsNoRegistration (id : string) (event : SupervisedEvent) : Prop :=
  registers (dispatched id event) = false.

Definition effectAllowed (e : Effect) : Prop :=
  forall id event, e = Sent id event -> sendsNoRegistration id event.

Definition commitAllowed (c : Commit) : Prop :=
  forall id event, c = Send id event -> sendsNoRegistration id event.

(** The store is created with the empty registry (line 125); which
    interpreter objects exist at that time does not matter. *)
Definition initialWorld (services : Services) : World :=
  mkWorld services ∅ 0.

(** The states between commits. *)
Inductive reachableByCommits : World -> Prop :=
| commits_initial services : reachableByCommits (initialWorld services)
| commits_step c w w' :
    reachableByCommits w -> commitAllowed c -> commit c w = Some w' ->
    reachableByCommits w'.

(** The states that the application passes through: the states between
    commits and, within the commit that mounts a component, the states after
    its render, after its registration effect and after its attach effect.
    The effects of a commit run one after the other; a handler runs between
    commits. *)
Inductive reachable : World -> Prop :=
| reachable_settled w : reachableByCommits w -> reachable w
| reachable_rendered machine w svc w1 :
    reachableByCommits w ->
    render machine w = (svc, w1) ->
    reachable w1
| reachable_registered machine w svc w1 w2 :
    reachableByCommits w ->
    render machine w = (svc, w1) ->
    registerEffect machine w1 = Some w2 ->
    reachable w2
| reachable_attached machine w svc w1 w2 w3 :
    reachableByCommits w ->
    render machine w = (svc, w1) ->
    registerEffect machine w1 = Some w2 ->
    attachEffect (machineId machine) svc w2 = Some w3 ->
    reachable w3.

(** The states between commits as long as nothing has thrown. *)
Inductive reachableWithoutThrow : World -> Prop :=
| quiet_initial services : reachableWithoutThrow (initialWorld services)
| quiet_step c w w' :
    reachableWithoutThrow w -> commitAllowed c -> attempt c w = Some w' ->
    reachableWithoutThrow w'.

(** A run of effects, and a run of commits, from a state. *)
Definition runAll (effects : list Effect) (w : World) : option World :=
  reduce (fun w e => run e w) effects w.

Definition commitAll (commits : list Commit) (w : World) : option World :=
  reduce (fun w c => commit c w) commits w.

Definition attemptAll (commits : list Commit) (w : World) : option World :=
  reduce (fun w c => attempt c w) commits w.

(** The invariant of the data model: a station with a live interpreter has
    an empty queue. *)
Definition liveMeansDrained (stations : Stations) : Prop :=
  forall id station,
    stations !! id = Some station ->
    is_Some (service station) -> eventQueue station = [].

(** An event that the router delivers to the entry [k] and to no other. *)
Definition addressedTo (k : string) (event : Event) : Prop :=
  isPlain event = true
  /\ (forall ids, to event <> ToArray ids)
  /\ propertyKey (to event) = k.

(** Every queued event is addressed to the entry whose queue holds it. *)
Definition queuesAddressed (stations : Stations) : Prop :=
  forall k station,
    stations !! k = Some station -> Forall (addressedTo k) (eventQueue station).

(** Every attached interpreter was created by the hook, is attached to one
    entry only, and is in the state that the station stores. *)
Definition inSync (services : Services) (next : AnyService)
    (stations : Stations) : Prop :=
  (forall k station svc,
      stations !! k = Some station -> service station = Some svc ->
      svc < next /\ icurrent (services svc) = state station)
  /\ (forall k1 k2 station1 station2 svc,
        stations !! k1 = Some station1 -> stations !! k2 = Some station2 ->
        service station1 = Some svc -> service station2 = Some svc ->
        k1 = k2).

(** The contract of the [changed] flag: a state reported as unchanged is the
    state that the interpreter was in. *)
Definition unchangedMeansSame : Prop :=
  forall machine current event,
    snd (transition machine current event) = false ->
    fst (transition machine current event) = current.

(** Feeding events to an interpreter directly, in order. *)
Definition feed (svc : AnyService) (evs : list Event) (services : Services)
    : Services :=
  fold_left (fun services event => fst (send services svc event)) evs services.

(** The configuration of a fresh interpreter of [machine], started from
    [seed], after it has been fed [evs]. *)
Definition replay (machine : AnyMachine) (seed : XState) (evs : list Event)
    : XState :=
  icurrent (feed 0 evs (fun _ => mkInterpreter machine seed) 0).

End Supervisor.

(** ** What the router does, event by event *)

Section Deliveries.

Context `{X : Xstate}.

(** The calls of the router that do not recurse, in the order in which the
    router reaches them: a batch contributes the deliveries of its members,
    an event addressed to an array its copies, and every other event (a
    registration, an event with one target, and a batch without [events],
    at which the router throws) itself. *)
Fixpoint deliveries (event : Event) : list Event :=
  if isBatchedEvent event then
    match events event with
    | Some evs => concat (map deliveries evs)
    | None => [event]
    end
  else if isRegisterEvent event then [event]
  else match to event with
       | ToArray ids => map (fun id => withTo event (ToString id)) ids
       | _ => [event]
       end.

(** The entry that a non-recursive call writes, if any. *)
Definition written (event : Event) : list string :=
  if isBatchedEvent event then []
  else if isRegisterEvent event then
    match payload event with
    | Some station => [id station]
    | None => []
    end
  else [propertyKey (to event)].

(** The entries that the router may write when it is applied to [event]. *)
Definition targets (event : Event) : list string :=
  flat_map written (deliveries event).

(** What the router never changes of a registered station, unless the event
    registers. *)
Definition frame (station : Station) : string * AnyMachine * option AnyService :=
  (id station, machine station, service station).

(** Every entry is stored under the identity of its station, which is the
    identity of its machine. *)
Definition keyedById (stations : Stations) : Prop :=
  forall k station,
    stations !! k = Some station ->
    id station = k /\ machineId (machine station) = k.

End Deliveries.

(** ** The components *)

Section Components.

Context `{X : Xstate}.

(** [{ type: "CHANGE", value }], as the input's [onChange] builds it
    (lines 350 and 356), and with a target. *)
Definition changeEvent (value : string) : Event :=
  mkEvent "CHANGE" ToUndefined None None [("value", value)].

Definition changeTo (t : Target) (value : string) : Event :=
  mkEvent "CHANGE" t None None [("value", value)].

(** What the [onChange] property of an input returns
    ([X.AnyEventObject | X.AnyEventObject[]], line 304). *)
Inductive Additional : Type :=
| OneEvent (event : Event)
| ManyEvents (items : list Event).

(** [[first].concat(additional)]: an array argument is spliced in, any other
    argument is appended. *)
Definition concatTo (first : Event) (additional : Additional) : list Event :=
  match additional with
  | OneEvent event => [first; event]
  | ManyEvents items => first :: items
  end.

(** What the [onChange] handler of an input passes to its send function,
    lines 346-357. *)
Definition inputChange (onChange : option (string -> Additional))
    (value : string) : SupervisedEvent :=
  match onChange with
  | Some additionalEvents =>
      Batch (map EventObject (concatTo (changeEvent value) (additionalEvents value)))
  | None => Single (EventObject (changeEvent value))
  end.

(** The handler itself: the input sends through the bus with the send
    function of its machine, whose identity is the input's [id]
    ([createInputMachine({ id, ... })], lines 313-323). *)
Definition inputOnChange (id : string) (onChange : option (string -> Additional))
    (value : string) (w : World) : option World :=
  sendToStore id (inputChange onChange value) w.

(** Lines 358 and 359. *)
Definition inputOnFocus (id : string) (w : World) : option World :=
  sendToStore id (Single (TypeName "FOCUS")) w.

Definition inputOnBlur (id : string) (w : World) : option World :=
  sendToStore id (Single (TypeName "BLUR")) w.

(** The [onChange] property of the Country input, lines 394-400, and of the
    State or Province input, line 407. *)
Definition countryOnChange : string -> Additional :=
  fun _ => ManyEvents [changeTo (ToArray ["State"; "Province"; "City"]) ""].

Definition regionOnChange : string -> Additional :=
  fun _ => ManyEvents [changeTo (ToString "City") ""].

(** [countrySelector], lines 369-370.  [contextValue] reads
    [state.context?.value]; the machine that defines the context is not part
    of these files. *)
Definition countrySelector (contextValue : XState -> option string)
    (storeState : Stations) : string :=
  match storeState !! "Country" with
  | Some station =>
      match contextValue (state station) with
      | Some value => if String.eqb value "" then "" else value
      | None => ""
      end
  | None => ""
  end.

End Components.

(** ** The validity of an input's value *)

(** A JavaScript string is a sequence of UTF-16 code units. *)
Module Validation.

(** The code units that [trim] removes: the white space and the line
    terminators of ECMAScript (all of them are single code units). *)
Definition isWhiteSpace (c : N) : bool :=
  ((9 <=? c) && (c <=? 13)
   || (c =? 32) || (c =? 160) || (c =? 5760)
   || (8192 <=? c) && (c <=? 8202)
   || (c =? 8232) || (c =? 8233) || (c =? 8239) || (c =? 8287)
   || (c =? 12288) || (c =? 65279))%N.

Fixpoint trimStart (str : list N) : list N :=
  match str with
  | [] => []
  | c :: rest => if isWhiteSpace c then trimStart rest else str
  end.

Definition trimEnd (str : list N) : list N :=
  rev (trimStart (rev str)).

Definition trim (str : list N) : list N :=
  trimEnd (trimStart str).

(** [!!str] for a string. *)
Definition nonEmpty (str : list N) : bool :=
  match str with
  | [] => false
  | _ :: _ => true
  end.

(** [isValid], line 317: [(str?: string) => !!str && !!str.trim()]. *)
Definition isValid (str : option (list N)) : bool :=
  match str with
  | None => false
  | Some str => nonEmpty str && nonEmpty (trim str)
  end.

End Validation.

(** ** The toggle machine

    [createToggleMachine(id)]: two states, [NO] initially, and the event
    [TOGGLE] moves from each to the other.  Any other event leaves the state
    as it is, and the interpreter reports it unchanged. *)
Module Toggle.

Inductive Value : Type := YES | NO.

Definition flip (v : Value) : Value :=
  match v with
  | YES => NO
  | NO => YES
  end.

#[export] Instance createToggleMachine : Xstate := {|
  XState := Value;
  AnyMachine := string;
  machineId := fun id => id;
  initialState := fun _ => NO;
  transition := fun _ current event =>
    if String.eqb (type event) "TOGGLE" then (flip current, true)
    else (current, false) |}.

(** Sample data: events, stations and registries. *)
Definition toggleTo (to : Target) : Event :=
  mkEvent "TOGGLE" to None None [].

Definition focusTo (to : Target) : Event :=
  mkEvent "FOCUS" to None None [].

Definition parked (id : string) (queue : list Event) : Station :=
  mkStation id id None queue NO.

Definition live (id : string) (svc : AnyService) (queue : list Event) : Station :=
  mkStation id id (Some svc) queue NO.

Definition idle : Services := fun _ => mkInterpreter "A" NO.

Definition oneParked : Stations := {[ "A" := parked "A" [] ]}.

Definition twoLive : Stations :=
  <[ "B" := live "B" 1 [] ]> {[ "A" := live "A" 0 [] ]}.

Definition undefinedParked : Stations :=
  {[ "undefined" := parked "undefined" [] ]}.

Definition withBystander : Stations :=
  <[ "C" := live "C" 2 [] ]> twoLive.

(** What is stored for an identity: the queue and the state. *)
Definition stored (id : string) (stations : Stations)
    : option (list Event * Value) :=
  (fun station => (eventQueue station, state station)) <$> stations !! id.

(** A component mounts the machine ["A"] and unmounts; another component
    sends two events to ["A"], which are parked; then ["A"] is mounted again.
    [remounting] stops after the attach effect of the second mount, before
    its drain effect. *)
Definition sendToA (event : Event) : SupervisedEvent :=
  Single (EventObject event).

Definition remounting : list Effect :=
  [Register "A"; Attach "A"; Drain "A"; Detach "A";
   Sent "B" (sendToA (toggleTo (ToString "A")));
   Sent "B" (sendToA (focusTo (ToString "A")));
   Register "A"; Attach "A"].

Definition attachedAgain : World :=
  Eval vm_compute in
    default (initialWorld idle) (runAll remounting (initialWorld idle)).

Definition remount : list Commit :=
  [Mount "A"; Unmount "A";
   Send "B" (sendToA (toggleTo (ToString "A")));
   Send "B" (sendToA (focusTo (ToString "A")));
   Mount "A"].

Definition mountedAgain : World :=
  Eval vm_compute in
    default (initialWorld idle) (commitAll remount (initialWorld idle)).

(** The application, lines 379-406: the machine of the check box, and the
    identity of the input that is rendered for its state. *)
Definition provinceOrStateM : AnyMachine := "provinceOrState".

Definition regionInput (stateNotProvince : Value) : string :=
  match stateNotProvince with
  | YES => "State"
  | NO => "Province"
  end.

Definition toggles (evs : list Event) : nat :=
  length (List.filter (fun event => String.eqb (type event) "TOGGLE") evs).

(** More sample data. *)
Definition parking : list Commit :=
  [Mount "A"; Unmount "A";
   Send "B" (sendToA (toggleTo (ToString "A")));
   Send "B" (sendToA (focusTo (ToString "A")))].

Definition parkedWithTwo : World :=
  Eval vm_compute in
    default (initialWorld idle) (commitAll parking (initialWorld idle)).

Definition shown (v : Value) : option string :=
  Some (regionInput v).

(** A component mounts the machine ["A"] and sends [TOGGLE] together with
    the reserved type name [BATCHED]. *)
Definition toggleThenBatched : SupervisedEvent :=
  Batch [TypeName "TOGGLE"; TypeName "BATCHED"].

Definition mounting : list Commit := [Mount "A"].

Definition mounted : World :=
  Eval vm_compute in
    default (initialWorld idle) (commitAll mounting (initialWorld idle)).

Definition throwing : list Commit := [Mount "A"; Send "A" toggleThenBatched].

Definition leftBehind : World :=
  Eval vm_compute in
    default (initialWorld idle) (commitAll throwing (initialWorld idle)).

Definition countryLive : Stations :=
  {[ "Country" := live "Country" 0 [] ]}.

End Toggle.

(** * Theory *)

Section Theory.

Context `{X : Xstate}.

(** ** The budget is never exhausted *)

Lemma depth_member (evs : list Event) (next : Event) :
  In next evs -> depth next <= list_max (map depth evs).
Proof.
  induction evs as [|e evs IH]; simpl; [tauto|].
  intros [->|Hin]; [lia|]. specialize (IH Hin). lia.
Qed.

Lemma depth_unfold (event : Event) :
  depth event =
  if isBatchedEvent event then
    match events event with
    | Some evs => S (list_max (map depth evs))
    | None => 1
    end
  else if isRegisterEvent event then 1
  else match to event with
       | ToArray _ => 3
       | _ => 1
       end.
Proof. destruct event; reflexivity. Qed.

Lemma depth_pos (event : Event) : 1 <= depth event.
Proof.
  rewrite depth_unfold.
  destruct (isBatchedEvent event); [destruct (events event); lia|].
  destruct (isRegisterEvent event); [lia|]. destruct (to event); lia.
Qed.

Lemma depth_copy (event : Event) (i : string) :
  isBatchedEvent event = false ->
  isRegisterEvent event = false ->
  depth (withTo event (ToString i)) = 1.
Proof.
  intros Hb Hr. rewrite depth_unfold.
  change (isBatchedEvent (withTo event (ToString i))) with (isBatchedEvent event).
  change (isRegisterEvent (withTo event (ToString i))) with (isRegisterEvent event).
  rewrite Hb, Hr. reflexivity.
Qed.

Lemma depth_copies (event : Event) (ids : list string) :
  isBatchedEvent event = false ->
  isRegisterEvent event = false ->
  depth (batched (map (fun i => withTo event (ToString i)) ids)) <= 2.
Proof.
  intros Hb Hr. rewrite depth_unfold.
  change (isBatchedEvent (batched _)) with true.
  change (events (batched ?l)) with (Some l). cbv iota.
  enough (list_max (map depth (map (fun i => withTo event (ToString i)) ids)) <= 1) by lia.
  induction ids as [|i ids IH]; [simpl; lia|].
  rewrite !map_cons. change (list_max (?x :: ?l)) with (Nat.max x (list_max l)).
  rewrite (depth_copy event i Hb Hr). lia.
Qed.

Lemma reduceSending_ext_in {B : Type}
    (f g : Services -> Stations -> B -> Outcome) (l : list B) :
  (forall services stations x, In x l -> f services stations x = g services stations x) ->
  forall services stations,
    reduceSending f l services stations = reduceSending g l services stations.
Proof.
  induction l as [|x l IH]; intros Hfg services stations; simpl; [reflexivity|].
  rewrite (Hfg services stations x (or_introl eq_refl)).
  destruct (g services stations x) as [services' [acc|]]; [|reflexivity].
  apply IH. intros sv st y Hy. apply Hfg. right; exact Hy.
Qed.

Lemma stationsReducerAt_stable (n : nat) :
  forall (event : Event) (m : nat) services stations,
    depth event <= n -> depth event <= m ->
    stationsReducerAt n services stations event
    = stationsReducerAt m services stations event.
Proof.
  induction n as [|n IH]; intros event m services stations Hn Hm.
  { pose proof (depth_pos event). lia. }
  destruct m as [|m]; [pose proof (depth_pos event); lia|].
  rewrite depth_unfold in Hn, Hm. cbn [stationsReducerAt].
  destruct (isBatchedEvent event) eqn:Hb.
  - destruct (events event) as [evs|]; [|reflexivity].
    apply reduceSending_ext_in. intros sv st next Hin.
    pose proof (depth_member evs next Hin).
    apply IH; lia.
  - destruct (isRegisterEvent event) eqn:Hr; [reflexivity|].
    destruct (to event) as [|i|ids]; try reflexivity.
    pose proof (depth_copies event ids Hb Hr) as Hc.
    apply IH; lia.
Qed.

(** The defining equation of the router, as the source states it: first
    with the interpreters that a throwing call leaves behind, then for the
    value that the call returns. *)
Lemma outcome_unfold (services : Services) (stations : Stations)
    (event : Event) :
  outcome services stations event =
  if isBatchedEvent event then
    match events event with
    | Some evs => reduceSending outcome evs services stations
    | None => (services, None)
    end
  else if isRegisterEvent event then
    match payload event with
    | Some station => (services, Some (<[id station := station]> stations))
    | None => (services, None)
    end
  else
    match to event with
    | ToArray ids =>
        outcome services stations
          (batched (map (fun id => withTo event (ToString id)) ids))
    | _ =>
        match getProperty stations (propertyKey (to event)) with
        | Own station =>
            let '(services', station') := stationReducer services station event in
            (services', Some (<[propertyKey (to event) := station']> stations))
        | Inherited => (services, None)
        | Undefined => (services, Some stations)
        end
    end.
Proof.
  unfold outcome at 1.
  pose proof (depth_unfold event) as Hd.
  destruct (depth event) as [|k] eqn:Hk; [pose proof (depth_pos event); lia|].
  cbn [stationsReducerAt].
  destruct (isBatchedEvent event) eqn:Hb.
  - destruct (events event) as [evs|]; [|reflexivity].
    apply reduceSending_ext_in. intros sv st next Hin.
    pose proof (depth_member evs next Hin).
    unfold outcome. apply stationsReducerAt_stable; lia.
  - destruct (isRegisterEvent event) eqn:Hr; [reflexivity|].
    destruct (to event) as [|i|ids]; try reflexivity.
    pose proof (depth_copies event ids Hb Hr) as Hc.
    unfold outcome. apply stationsReducerAt_stable; lia.
Qed.

Lemma returned_reduceSending (evs : list Event) :
  forall services stations,
    returned (reduceSending outcome evs services stations)
    = reduce (fun acc next => stationsReducer (fst acc) (snd acc) next)
        evs (services, stations).
Proof.
  induction evs as [|e evs IH]; intros services stations; [reflexivity|].
  cbn [reduceSending reduce fst snd]. unfold stationsReducer at 1.
  destruct (outcome services stations e) as [services' [acc|]]; [|reflexivity].
  cbn [returned]. apply IH.
Qed.

Lemma stationsReducer_unfold (services : Services) (stations : Stations)
    (event : Event) :
  stationsReducer services stations event =
  if isBatchedEvent event then
    match events event with
    | Some evs =>
        reduce (fun acc next => stationsReducer (fst acc) (snd acc) next)
          evs (services, stations)
    | None => None
    end
  else if isRegisterEvent event then
    match payload event with
    | Some station => Some (services, <[id station := station]> stations)
    | None => None
    end
  else
    match to event with
    | ToArray ids =>
        stationsReducer services stations
          (batched (map (fun id => withTo event (ToString id)) ids))
    | _ =>
        match stations !! propertyKey (to event) with
        | Some station =>
            let '(services', station') := stationReducer services station event in
            Some (services', <[propertyKey (to event) := station']> stations)
        | None =>
            if inherited (propertyKey (to event)) then None
            else Some (services, stations)
        end
    end.
Proof.
  unfold stationsReducer at 1. rewrite outcome_unfold.
  destruct (isBatchedEvent event).
  - destruct (events event) as [evs|]; [|reflexivity].
    apply returned_reduceSending.
  - destruct (isRegisterEvent event).
    + destruct (payload event); reflexivity.
    + unfold getProperty.
      destruct (to event) as [|i|ids]; try reflexivity.
      * destruct (stations !! propertyKey ToUndefined) as [station|].
        -- destruct (stationReducer services station event); reflexivity.
        -- destruct (inherited (propertyKey ToUndefined)); reflexivity.
      * destruct (stations !! propertyKey (ToString i)) as [station|].
        -- destruct (stationReducer services station event); reflexivity.
        -- destruct (inherited (propertyKey (ToString i))); reflexivity.
Qed.

(** ** The router as a fold *)

Lemma applyInOrder_none (evs : list Event) : applyInOrder evs None = None.
Proof. induction evs as [|e evs IH]; [reflexivity|exact IH]. Qed.

Lemma applyInOrder_cons (e : Event) (evs : list Event) services stations :
  applyInOrder (e :: evs) (Some (services, stations))
  = applyInOrder evs (stationsReducer services stations e).
Proof. reflexivity. Qed.

Lemma applyInOrder_app (evs1 evs2 : list Event) start :
  applyInOrder (evs1 ++ evs2) start = applyInOrder evs2 (applyInOrder evs1 start).
Proof. unfold applyInOrder. apply fold_left_app. Qed.

Lemma reduce_applyInOrder (evs : list Event) services stations :
  reduce (fun acc next => stationsReducer (fst acc) (snd acc) next)
    evs (services, stations)
  = applyInOrder evs (Some (services, stations)).
Proof.
  revert services stations.
  induction evs as [|e evs IH]; intros services stations; [reflexivity|].
  rewrite applyInOrder_cons. cbn [reduce fst snd].
  destruct (stationsReducer services stations e) as [[services' stations']|].
  - apply IH.
  - symmetry. apply applyInOrder_none.
Qed.

Lemma stationsReducer_batch (event : Event) (evs : list Event) services stations :
  isBatchedEvent event = true ->
  events event = Some evs ->
  stationsReducer services stations event
  = applyInOrder evs (Some (services, stations)).
Proof.
  intros Hb He. rewrite stationsReducer_unfold, Hb, He.
  apply reduce_applyInOrder.
Qed.

Lemma stationsReducer_register (event : Event) (station : Station) services stations :
  isBatchedEvent event = false ->
  isRegisterEvent event = true ->
  payload event = Some station ->
  stationsReducer services stations event
  = Some (services, <[id station := station]> stations).
Proof.
  intros Hb Hr Hp. rewrite stationsReducer_unfold, Hb, Hr, Hp. reflexivity.
Qed.

Lemma stationsReducer_array (event : Event) (ids : list string) services stations :
  isBatchedEvent event = false ->
  isRegisterEvent event = false ->
  to event = ToArray ids ->
  stationsReducer services stations event
  = applyInOrder (map (fun id => withTo event (ToString id)) ids)
      (Some (services, stations)).
Proof.
  intros Hb Hr Ht. rewrite stationsReducer_unfold, Hb, Hr, Ht.
  apply stationsReducer_batch; reflexivity.
Qed.

Lemma stationsReducer_single (event : Event) services stations :
  isBatchedEvent event = false ->
  isRegisterEvent event = false ->
  (forall ids, to event <> ToArray ids) ->
  stationsReducer services stations event
  = match stations !! propertyKey (to event) with
    | Some station =>
        Some (fst (stationReducer services station event),
              <[propertyKey (to event) := snd (stationReducer services station event)]>
                stations)
    | None =>
        if inherited (propertyKey (to event)) then None
        else Some (services, stations)
    end.
Proof.
  intros Hb Hr Ht. rewrite stationsReducer_unfold, Hb, Hr.
  destruct (to event) as [|i|ids] eqn:E; [| |exfalso; exact (Ht ids eq_refl)];
    (destruct (stations !! _) as [station|]; [|reflexivity];
     destruct (stationReducer services station event); reflexivity).
Qed.

Lemma isPlain_spec (event : Event) :
  isPlain event = true <->
  isBatchedEvent event = false /\ isRegisterEvent event = false.
Proof.
  unfold isPlain.
  destruct (isBatchedEvent event), (isRegisterEvent event); simpl; intuition congruence.
Qed.

Lemma registers_unfold (event : Event) :
  registers event =
  if isBatchedEvent event then
    match events event with
    | Some evs => existsb registers evs
    | None => false
    end
  else isRegisterEvent event.
Proof. destruct event; reflexivity. Qed.

Lemma wellFormed_unfold (event : Event) :
  wellFormed event =
  if isBatchedEvent event then
    match events event with
    | Some evs => forallb wellFormed evs
    | None => false
    end
  else if isRegisterEvent event then
    match payload event with Some _ => true | None => false end
  else true.
Proof. destruct event; reflexivity. Qed.

Lemma copy_isBatchedEvent (event : Event) (t : Target) :
  isBatchedEvent (withTo event t) = isBatchedEvent event.
Proof. reflexivity. Qed.

Lemma copy_isRegisterEvent (event : Event) (t : Target) :
  isRegisterEvent (withTo event t) = isRegisterEvent event.
Proof. reflexivity. Qed.

Lemma copy_isPlain (event : Event) (t : Target) :
  isPlain (withTo event t) = isPlain event.
Proof. reflexivity. Qed.

Lemma registers_copies (event : Event) (ids : list string) :
  isBatchedEvent event = false ->
  isRegisterEvent event = false ->
  registers (batched (map (fun id => withTo event (ToString id)) ids)) = false.
Proof.
  intros Hb Hr. rewrite registers_unfold.
  change (isBatchedEvent (batched _)) with true.
  change (events (batched ?l)) with (Some l). cbv iota.
  induction ids as [|i ids IH]; [reflexivity|].
  cbn [map existsb]. rewrite IH, orb_false_r.
  rewrite registers_unfold, copy_isBatchedEvent, Hb, copy_isRegisterEvent.
  exact Hr.
Qed.

Lemma wellFormed_copies (event : Event) (ids : list string) :
  isBatchedEvent event = false ->
  isRegisterEvent event = false ->
  wellFormed (batched (map (fun id => withTo event (ToString id)) ids)) = true.
Proof.
  intros Hb Hr. rewrite wellFormed_unfold.
  change (isBatchedEvent (batched _)) with true.
  change (events (batched ?l)) with (Some l). cbv iota.
  induction ids as [|i ids IH]; [reflexivity|].
  cbn [map forallb]. rewrite IH, andb_true_r.
  rewrite wellFormed_unfold, copy_isBatchedEvent, Hb, copy_isRegisterEvent, Hr.
  reflexivity.
Qed.

(** ** Induction over the router's calls *)

(** A property of the interpreters and the registry that registration (when
    the event can reach it) and the delivery of one plain event preserve is
    preserved by the router. *)
Lemma stationsReducer_preserves_within (P : Services -> Stations -> Prop) :
  (forall services stations event station,
      isPlain event = true ->
      (forall ids, to event <> ToArray ids) ->
      stations !! propertyKey (to event) = Some station ->
      P services stations ->
      P (fst (stationReducer services station event))
        (<[propertyKey (to event) := snd (stationReducer services station event)]>
           stations)) ->
  forall n event services stations services' stations',
    depth event <= n ->
    (registers event = true ->
     forall services stations (station : Station),
       P services stations -> P services (<[id station := station]> stations)) ->
    stationsReducer services stations event = Some (services', stations') ->
    P services stations -> P services' stations'.
Proof.
  intros Hstep. induction n as [|n IH];
    intros event services stations services' stations' Hn Hreg Hrun HP.
  { pose proof (depth_pos event). lia. }
  rewrite stationsReducer_unfold in Hrun. rewrite depth_unfold in Hn.
  pose proof (registers_unfold event) as Hregs.
  destruct (isBatchedEvent event) eqn:Hb.
  - destruct (events event) as [evs|]; [|discriminate].
    assert (HR : existsb registers evs = true ->
                 forall services stations (station : Station),
                   P services stations ->
                   P services (<[id station := station]> stations)).
    { intros Hex. apply Hreg. rewrite Hregs. exact Hex. }
    assert (Hd : forall e, In e evs -> depth e <= n).
    { intros e He. pose proof (depth_member evs e He). lia. }
    clear Hb Hregs Hreg Hn. revert services stations Hrun HP.
    induction evs as [|e evs IHevs]; intros services stations Hrun HP.
    + simpl in Hrun. injection Hrun as <- <-. exact HP.
    + cbn [reduce fst snd] in Hrun.
      destruct (stationsReducer services stations e) as [[sv1 st1]|] eqn:He;
        [|discriminate].
      cbn [existsb] in HR.
      apply (IHevs ltac:(intros Hex; apply HR; rewrite Hex; apply orb_true_r)
               ltac:(intros e' He'; apply Hd; right; exact He')
               sv1 st1 Hrun).
      apply (IH e services stations sv1 st1);
        [apply Hd; left; reflexivity| |exact He|exact HP].
      intros Hre. apply HR. rewrite Hre. reflexivity.
  - destruct (isRegisterEvent event) eqn:Hr.
    + destruct (payload event) as [station|]; [|discriminate].
      injection Hrun as <- <-. apply Hreg; [exact Hregs|exact HP].
    + destruct (to event) as [|i|ids] eqn:Ht.
      * destruct (stations !! _) as [station|] eqn:Hl.
        -- pose proof (Hstep services stations event station) as Hs.
           rewrite Ht in Hs. specialize (Hs ltac:(apply isPlain_spec; auto)
                                            ltac:(congruence) Hl HP).
           destruct (stationReducer services station event) as [sv1 st1].
           injection Hrun as <- <-. exact Hs.
        -- destruct (inherited _); [discriminate|].
           injection Hrun as <- <-. exact HP.
      * destruct (stations !! _) as [station|] eqn:Hl.
        -- pose proof (Hstep services stations event station) as Hs.
           rewrite Ht in Hs. specialize (Hs ltac:(apply isPlain_spec; auto)
                                            ltac:(congruence) Hl HP).
           destruct (stationReducer services station event) as [sv1 st1].
           injection Hrun as <- <-. exact Hs.
        -- destruct (inherited _); [discriminate|].
           injection Hrun as <- <-. exact HP.
      * pose proof (depth_copies event ids Hb Hr) as Hc.
        refine (IH _ _ _ _ _ _ _ Hrun HP); [lia|].
        intros Hx. rewrite registers_copies in Hx by assumption. discriminate.
Qed.

Lemma stationsReducer_preserves (P : Services -> Stations -> Prop) :
  (forall services stations event station,
      isPlain event = true ->
      (forall ids, to event <> ToArray ids) ->
      stations !! propertyKey (to event) = Some station ->
      P services stations ->
      P (fst (stationReducer services station event))
        (<[propertyKey (to event) := snd (stationReducer services station event)]>
           stations)) ->
  forall event services stations services' stations',
    (registers event = true ->
     forall services stations (station : Station),
       P services stations -> P services (<[id station := station]> stations)) ->
    stationsReducer services stations event = Some (services', stations') ->
    P services stations -> P services' stations'.
Proof.
  intros Hstep event services stations services' stations'.
  apply (stationsReducer_preserves_within P Hstep (depth event)). lia.
Qed.

Lemma avoidsInherited_unfold (event : Event) :
  avoidsInherited event =
  if isBatchedEvent event then
    match events event with
    | Some evs => forallb avoidsInherited evs
    | None => true
    end
  else if isRegisterEvent event then true
  else match to event with
       | ToArray ids => forallb (fun id => negb (inherited id)) ids
       | t => negb (inherited (propertyKey t))
       end.
Proof. destruct event; reflexivity. Qed.

Lemma avoidsInherited_copies (event : Event) (ids : list string) :
  isBatchedEvent event = false ->
  isRegisterEvent event = false ->
  forallb (fun id => negb (inherited id)) ids = true ->
  avoidsInherited (batched (map (fun id => withTo event (ToString id)) ids)) = true.
Proof.
  intros Hb Hr. rewrite avoidsInherited_unfold.
  change (isBatchedEvent (batched _)) with true.
  change (events (batched ?l)) with (Some l). cbv iota.
  induction ids as [|i ids IH]; [reflexivity|].
  cbn [map forallb]. intros [Hi Hrest]%andb_true_iff.
  rewrite (IH Hrest), andb_true_r.
  rewrite avoidsInherited_unfold, copy_isBatchedEvent, Hb, copy_isRegisterEvent, Hr.
  exact Hi.
Qed.

(** The router returns for every well-formed event that addresses no
    inherited name. *)
Lemma stationsReducer_total_within (n : nat) :
  forall event services stations,
    depth event <= n -> wellFormed event = true -> avoidsInherited event = true ->
    is_Some (stationsReducer services stations event).
Proof.
  induction n as [|n IH]; intros event services stations Hn Hwf Hav.
  { pose proof (depth_pos event). lia. }
  rewrite depth_unfold in Hn. rewrite stationsReducer_unfold.
  rewrite wellFormed_unfold in Hwf. rewrite avoidsInherited_unfold in Hav.
  destruct (isBatchedEvent event) eqn:Hb.
  - destruct (events event) as [evs|]; [|discriminate].
    assert (Hd : forall e, In e evs -> depth e <= n).
    { intros e He. pose proof (depth_member evs e He). lia. }
    clear Hn Hb. revert services stations.
    induction evs as [|e evs IHevs]; intros services stations; [eexists; reflexivity|].
    cbn [forallb] in Hwf, Hav.
    apply andb_true_iff in Hwf as [He Hrest].
    apply andb_true_iff in Hav as [Hae Harest].
    cbn [reduce fst snd].
    destruct (IH e services stations (Hd e (or_introl eq_refl)) He Hae) as [[sv1 st1] ->].
    apply IHevs; [exact Hrest|exact Harest|].
    intros e' He'. apply Hd. right; exact He'.
  - destruct (isRegisterEvent event) eqn:Hr.
    + destruct (payload event); [eexists; reflexivity|discriminate].
    + destruct (to event) as [|i|ids].
      * destruct (stations !! _);
          [destruct (stationReducer _ _ _); eexists; reflexivity|].
        apply negb_true_iff in Hav. rewrite Hav. eexists; reflexivity.
      * destruct (stations !! _);
          [destruct (stationReducer _ _ _); eexists; reflexivity|].
        apply negb_true_iff in Hav. rewrite Hav. eexists; reflexivity.
      * pose proof (depth_copies event ids Hb Hr) as Hc.
        apply IH; [lia|apply wellFormed_copies; assumption|].
        apply avoidsInherited_copies; assumption.
Qed.

Lemma stationsReducer_total (event : Event) services stations :
  wellFormed event = true ->
  avoidsInherited event = true ->
  is_Some (stationsReducer services stations event).
Proof.
  intros Hwf Hav. apply (stationsReducer_total_within (depth event)); [lia|assumption..].
Qed.

Lemma withEventQueue_same (station : Station) :
  withEventQueue station (eventQueue station) = station.
Proof. destruct station; reflexivity. Qed.

Lemma withTo_same (event : Event) : withTo event (to event) = event.
Proof. destruct event; reflexivity. Qed.

(** What the router does to one station that has no live interpreter. *)
Lemma stationsReducer_parks (event : Event) (station : Station) (id : string)
    services stations :
  isPlain event = true ->
  to event = ToString id ->
  stations !! id = Some station ->
  service station = None ->
  stationsReducer services stations event
  = Some (services,
          <[id := withEventQueue station (eventQueue station ++ [event])]> stations).
Proof.
  intros Hp Ht Hl Hs. apply isPlain_spec in Hp as [Hb Hr].
  rewrite stationsReducer_single by (auto; congruence).
  rewrite Ht. cbn [propertyKey]. rewrite Hl.
  unfold stationReducer. rewrite Hs. reflexivity.
Qed.

(** A plain event with one target changes no other entry. *)
Lemma stationsReducer_single_other (event : Event) (k : string)
    services stations services' stations' :
  isPlain event = true ->
  (forall ids, to event <> ToArray ids) ->
  k <> propertyKey (to event) ->
  stationsReducer services stations event = Some (services', stations') ->
  stations' !! k = stations !! k.
Proof.
  intros Hp Ht Hk Hrun. apply isPlain_spec in Hp as [Hb Hr].
  rewrite stationsReducer_single in Hrun by auto.
  destruct (stations !! propertyKey (to event)).
  - injection Hrun as <- <-. apply lookup_insert_ne. congruence.
  - destruct (inherited _); [discriminate|].
    injection Hrun as <- <-. reflexivity.
Qed.

(** A plain event whose one target has no entry: the router returns its
    input, unless the target is the name of an inherited property. *)
Lemma stationsReducer_unknown (event : Event) (id : string) services stations :
  isPlain event = true ->
  to event = ToString id ->
  stations !! id = None ->
  stationsReducer services stations event
  = if inherited id then None else Some (services, stations).
Proof.
  intros Hp Ht Hl. apply isPlain_spec in Hp as [Hb Hr].
  rewrite stationsReducer_single by (auto; congruence).
  rewrite Ht. cbn [propertyKey]. rewrite Hl. reflexivity.
Qed.

(** ** The router's laws *)

(** C1. For every registry and every batch event, applying the batch with
    the router equals the left fold of the router over the batch's member
    events in list order, each step's output (interpreters and registry)
    being the next step's input. *)
Theorem batch_is_left_fold (event : Event) (evs : list Event) services stations :
  isBatchedEvent event = true ->
  events event = Some evs ->
  stationsReducer services stations event
  = applyInOrder evs (Some (services, stations)).
Proof.
  intros Hb He. rewrite stationsReducer_unfold, Hb, He.
  apply reduce_applyInOrder.
Qed.

(** Hence a batch of two lists in a row is the batch of the first followed
    by the batch of the second. *)
Lemma batched_app (evs1 evs2 : list Event) services stations :
  stationsReducer services stations (batched (evs1 ++ evs2))
  = match stationsReducer services stations (batched evs1) with
    | Some (services', stations') =>
        stationsReducer services' stations' (batched evs2)
    | None => None
    end.
Proof.
  rewrite !(stationsReducer_batch (batched _) _ _ _ eq_refl eq_refl).
  rewrite applyInOrder_app.
  destruct (applyInOrder evs1 _) as [[services' stations']|].
  - rewrite (stationsReducer_batch (batched evs2) _ _ _ eq_refl eq_refl). reflexivity.
  - apply applyInOrder_none.
Qed.

Lemma applyInOrder_copies_others (event : Event) (ids : list string) :
  isPlain event = true ->
  forall services stations services' stations',
    applyInOrder (map (fun id => withTo event (ToString id)) ids)
      (Some (services, stations)) = Some (services', stations') ->
    forall k, k ∉ ids -> stations' !! k = stations !! k.
Proof.
  intros Hp. induction ids as [|i ids IH];
    intros services stations services' stations' Hrun k Hk.
  - injection Hrun as <- <-. reflexivity.
  - cbn [map] in Hrun. rewrite applyInOrder_cons in Hrun.
    apply not_elem_of_cons in Hk as [Hki Hk].
    destruct (stationsReducer services stations (withTo event (ToString i)))
      as [[sv1 st1]|] eqn:Hone;
      [|rewrite applyInOrder_none in Hrun; discriminate].
    rewrite (IH sv1 st1 services' stations' Hrun k Hk).
    apply (stationsReducer_single_other (withTo event (ToString i)) k
             services stations sv1 st1); [exact Hp|discriminate|exact Hki|exact Hone].
Qed.

Lemma applyInOrder_copies_returns (event : Event) (ids : list string) :
  isPlain event = true ->
  forall services stations,
    (forall id, id ∈ ids -> is_Some (stations !! id) \/ inherited id = false) ->
    is_Some (applyInOrder (map (fun id => withTo event (ToString id)) ids)
               (Some (services, stations))).
Proof.
  intros Hp. induction ids as [|i ids IH]; intros services stations Hsafe.
  - eexists; reflexivity.
  - cbn [map]. rewrite applyInOrder_cons.
    pose proof (proj1 (isPlain_spec event) Hp) as [Hb Hr].
    rewrite stationsReducer_single by (auto; discriminate).
    cbn [withTo to propertyKey].
    destruct (stations !! i) as [station|] eqn:Hl.
    + apply IH. intros j Hj.
      destruct (Hsafe j ltac:(right; exact Hj)) as [[sj Hsj]|Hinh]; [|right; exact Hinh].
      left. destruct (decide (j = i)) as [->|Hne].
      * rewrite lookup_insert_eq. eexists; reflexivity.
      * rewrite lookup_insert_ne by congruence. rewrite Hsj. eexists; reflexivity.
    + destruct (Hsafe i ltac:(left)) as [[si Hsi]|Hinh]; [congruence|].
      rewrite Hinh. apply IH. intros j Hj. apply Hsafe. right; exact Hj.
Qed.

(** C2. For every registry and every event (neither a batch nor a
    registration) whose target [to] is a list of identities, applying the
    event with the router equals applying the single-target copies of the
    event, one per identity and with [to] set to that identity, in list
    order, a throw included; when the router returns, stations that the list
    does not name are left unchanged; and the router returns when every
    listed identity has an entry or is not the name of an inherited
    property. *)
Theorem array_target_expands (event : Event) (ids : list string) services stations :
  isPlain event = true ->
  to event = ToArray ids ->
  stationsReducer services stations event
  = applyInOrder (map (fun id => withTo event (ToString id)) ids)
      (Some (services, stations))
  /\ (forall services' stations',
        stationsReducer services stations event = Some (services', stations') ->
        forall k, k ∉ ids -> stations' !! k = stations !! k)
  /\ ((forall id, id ∈ ids -> is_Some (stations !! id) \/ inherited id = false) ->
      is_Some (stationsReducer services stations event)).
Proof.
  intros Hp Ht.
  pose proof (proj1 (isPlain_spec event) Hp) as [Hb Hr].
  rewrite (stationsReducer_array event ids services stations Hb Hr Ht).
  split; [reflexivity|]. split.
  - apply applyInOrder_copies_others. exact Hp.
  - apply applyInOrder_copies_returns. exact Hp.
Qed.

(** C5. For every sequence of single-target events (events of the router's
    last case: neither a batch nor a registration, with [to] one identity)
    dispatched to a station that has no live interpreter, each event is
    appended to the tail of the station's queue: afterwards the queue of the
    stored station is the old queue followed by exactly the dispatched
    events in arrival order, the station's other properties are as they
    were, and nothing else in the registry or the interpreters has
    changed. *)
Theorem queue_is_fifo (evs : list Event) :
  forall (id_ : string) (station : Station) services stations,
    stations !! id_ = Some station ->
    service station = None ->
    Forall (fun event => isPlain event = true /\ to event = ToString id_) evs ->
    exists station' : Station,
      applyInOrder evs (Some (services, stations))
      = Some (services, <[id_ := station']> stations)
      /\ eventQueue station' = (eventQueue station ++ evs)%list
      /\ id station' = id station
      /\ machine station' = machine station
      /\ service station' = None
      /\ state station' = state station.
Proof.
  induction evs as [|e evs IH]; intros id_ station services stations Hl Hs Hall.
  - exists station. rewrite app_nil_r, insert_id by exact Hl.
    repeat split; try reflexivity. exact Hs.
  - apply Forall_cons in Hall as [[Hp Ht] Hall].
    rewrite applyInOrder_cons.
    rewrite (stationsReducer_parks e station id_ services stations Hp Ht Hl Hs).
    destruct (IH id_ (withEventQueue station (eventQueue station ++ [e])) services
                (<[id_ := withEventQueue station (eventQueue station ++ [e])]> stations)
                (lookup_insert_eq _ _ _) Hs Hall)
      as (station' & Hrun & Hq & Hi & Hm & Hsv & Hst).
    exists station'. rewrite Hrun, insert_insert_eq.
    split; [reflexivity|]. split.
    { rewrite Hq. cbn [withEventQueue eventQueue]. rewrite <- app_assoc. reflexivity. }
    repeat split; assumption.
Qed.

(** C6. A single-target event (neither a batch nor a registration, with
    [to] one identity) whose target identity has no entry in the registry:
    the router returns its input registry (and interpreters) as they are and
    raises no error, unless the identity is the name of a property that the
    registry inherits from [Object.prototype]; then the router throws. *)
Theorem unknown_target_throws_when_inherited (event : Event) (id : string)
    services stations :
  isPlain event = true ->
  to event = ToString id ->
  stations !! id = None ->
  (inherited id = false ->
   stationsReducer services stations event = Some (services, stations))
  /\ (inherited id = true ->
      stationsReducer services stations event = None
      /\ dispatch event (mkWorld services stations 0) = None).
Proof.
  intros Hp Ht Hl.
  pose proof (stationsReducer_unknown event id services stations Hp Ht Hl) as Hrun.
  split; intros Hinh; rewrite Hinh in Hrun; [exact Hrun|].
  split; [exact Hrun|]. unfold dispatch. cbn [interpreters store]. rewrite Hrun.
  reflexivity.
Qed.

(** C7. For every station with a live interpreter and every event delivered
    to it, the per-station reducer feeds the event to the interpreter (which
    moves to the next state); if the interpreter reports the state changed,
    the result is the station with its stored state replaced by the
    interpreter's new state, and if it reports unchanged the result is the
    input station itself. *)
Theorem stationReducer_live (station : Station) (event : Event)
    (svc : AnyService) services :
  service station = Some svc ->
  let next := transition (imachine (services svc)) (icurrent (services svc)) event in
  fst (stationReducer services station event) = fst (send services svc event)
  /\ icurrent (fst (stationReducer services station event) svc) = fst next
  /\ (snd next = true ->
      snd (stationReducer services station event) = withState station (fst next)
      /\ state (snd (stationReducer services station event)) = fst next)
  /\ (snd next = false ->
      snd (stationReducer services station event) = station).
Proof.
  intros Hs next. unfold stationReducer. rewrite Hs. unfold send.
  fold next. destruct next as [next' changed] eqn:E. cbn [fst snd].
  destruct changed; cbn [fst snd]; rewrite Nat.eqb_refl; cbn;
    repeat split; try reflexivity; discriminate.
Qed.

Lemma stationsReducer_keeps_entries (event : Event)
    services stations services' stations' :
  stationsReducer services stations event = Some (services', stations') ->
  dom stations ⊆ dom stations'.
Proof.
  intros Hrun.
  refine (stationsReducer_preserves (fun _ current => dom stations ⊆ dom current)
            _ event services stations services' stations' _ Hrun _).
  - intros sv st e station _ _ _ Hsub. rewrite dom_insert_L. set_solver.
  - intros _ sv st station Hsub. rewrite dom_insert_L. set_solver.
  - reflexivity.
Qed.

(** C8. The router never removes an entry: whenever it returns (and it
    returns for every well-formed event that addresses no name of an
    inherited property), the set of registered identities of its result
    includes the set before.  A registration event inserts or overwrites
    exactly the entry for its station's identity and leaves every other
    entry unchanged. *)
Theorem router_never_removes (event : Event) services stations :
  (wellFormed event = true -> avoidsInherited event = true ->
   is_Some (stationsReducer services stations event))
  /\ (forall services' stations',
        stationsReducer services stations event = Some (services', stations') ->
        dom stations ⊆ dom stations')
  /\ (forall station,
        isBatchedEvent event = false ->
        isRegisterEvent event = true ->
        payload event = Some station ->
        exists stations',
          stationsReducer services stations event = Some (services, stations')
          /\ stations' !! id station = Some station
          /\ forall k, k <> id station -> stations' !! k = stations !! k).
Proof.
  split; [apply stationsReducer_total|].
  split; [intros sv' st'; apply stationsReducer_keeps_entries|].
  intros station Hb Hr Hp.
  exists (<[id station := station]> stations).
  rewrite (stationsReducer_register event station services stations Hb Hr Hp).
  split; [reflexivity|]. split; [apply lookup_insert_eq|].
  intros k Hk. apply lookup_insert_ne. congruence.
Qed.

(** C10, as amended.  A non-batch, non-registration event whose [to] is
    absent is looked up under the property key ["undefined"]: the router
    never resolves the missing target to the sender.  When no station is
    registered under that key the router returns the registry unchanged;
    otherwise the station registered under ["undefined"] receives the
    event. *)
Theorem missing_target_uses_key_undefined (event : Event) services stations :
  isPlain event = true ->
  to event = ToUndefined ->
  stationsReducer services stations event
  = match stations !! "undefined" with
    | Some station =>
        Some (fst (stationReducer services station event),
              <["undefined" := snd (stationReducer services station event)]> stations)
    | None => Some (services, stations)
    end
  /\ (stations !! "undefined" = None ->
      stationsReducer services stations event = Some (services, stations)).
Proof.
  intros Hp Ht. apply isPlain_spec in Hp as [Hb Hr].
  rewrite stationsReducer_single by (auto; congruence).
  rewrite Ht. cbn [propertyKey]. change (inherited "undefined") with false.
  cbv iota.
  split; [reflexivity|]. intros ->. reflexivity.
Qed.

(** ** The send function *)

Lemma truthy_false (t : Target) :
  truthy t = false <-> t = ToUndefined \/ t = ToString "".
Proof.
  destruct t as [|i|ids]; cbn.
  - intuition.
  - rewrite negb_false_iff, String.eqb_eq. intuition congruence.
  - intuition discriminate.
Qed.

Lemma dispatchableEvent_hasTarget (id : string) (item : Sendable) :
  hasTarget (dispatchableEvent id item) = true.
Proof.
  destruct item as [name|event]; [reflexivity|].
  unfold dispatchableEvent, hasTarget, withTo. cbn [to].
  destruct (truthy (to event)) eqn:Ht; [|reflexivity].
  destruct (to event); [discriminate|reflexivity|reflexivity].
Qed.

(** C9, as amended.  For every event sent through a component's send
    function: a bare type name becomes an event object with that type and the
    component's identity as target; an event object whose target is absent
    or is the empty string is stamped with the component's identity as
    target, and any other target (a non-empty identity, or a list) is
    preserved; an array of events or type names is normalised element-wise
    and wrapped into a single [BATCHED] event.  So the router receives an
    event that has a target, or a batch of events that have one. *)
Theorem send_normalises (id : string) :
  (forall name,
      dispatched id (Single (TypeName name))
      = mkEvent name (ToString id) None None [])
  /\ (forall event,
        to event = ToUndefined \/ to event = ToString "" ->
        dispatched id (Single (EventObject event)) = withTo event (ToString id))
  /\ (forall event,
        to event <> ToUndefined -> to event <> ToString "" ->
        dispatched id (Single (EventObject event)) = event)
  /\ (forall items,
        dispatched id (Batch items)
        = batched (map (fun item => dispatched id (Single item)) items))
  /\ (forall event, uniformlyShaped (dispatched id event))
  /\ (forall event w,
        sendToStore id event w = dispatch (dispatched id event) w).
Proof.
  split; [reflexivity|].
  split.
  { intros event Hto. apply truthy_false in Hto.
    cbn [dispatched dispatchableEvent]. rewrite Hto. reflexivity. }
  split.
  { intros event H1 H2. cbn [dispatched dispatchableEvent].
    destruct (truthy (to event)) eqn:Ht.
    - apply withTo_same.
    - apply truthy_false in Ht. tauto. }
  split; [reflexivity|].
  split; [|reflexivity].
  intros [item|items].
  - left. apply dispatchableEvent_hasTarget.
  - right. exists (map (dispatchableEvent id) items). split; [reflexivity|].
    apply Forall_forall. intros e He. apply list_elem_of_fmap in He as (item & -> & _).
    apply dispatchableEvent_hasTarget.
Qed.

(** ** Invariants of the registry *)

Lemma addressedTo_registers (k : string) (queue : list Event) :
  Forall (addressedTo k) queue -> registers (batched queue) = false.
Proof.
  intros Hall. rewrite registers_unfold.
  change (isBatchedEvent (batched _)) with true.
  change (events (batched ?l)) with (Some l). cbv iota.
  induction Hall as [|e queue (Hp & _ & _) _ IH]; [reflexivity|].
  cbn [existsb]. rewrite IH, orb_false_r.
  apply isPlain_spec in Hp as [Hb Hr].
  rewrite registers_unfold, Hb. exact Hr.
Qed.

(** A property that holds of every entry, and that the per-station reducer
    keeps for the events addressed to the entry, is kept by the router for
    every event that cannot reach the registration case. *)
Lemma stationsReducer_pointwise (Q : string -> Station -> Prop) :
  (forall services k station event,
      addressedTo k event -> Q k station ->
      Q k (snd (stationReducer services station event))) ->
  forall event services stations services' stations',
    registers event = false ->
    stationsReducer services stations event = Some (services', stations') ->
    (forall k station, stations !! k = Some station -> Q k station) ->
    (forall k station, stations' !! k = Some station -> Q k station).
Proof.
  intros Hstep event services stations services' stations' Hreg Hrun.
  refine (stationsReducer_preserves
            (fun _ current => forall k station, current !! k = Some station -> Q k station)
            _ event services stations services' stations' _ Hrun).
  - intros sv st e station Hp Ht Hl HQ k station'.
    destruct (decide (propertyKey (to e) = k)) as [<-|Hne].
    + rewrite lookup_insert_eq. intros [= <-].
      apply Hstep; [repeat split; auto|]. apply HQ. exact Hl.
    + rewrite lookup_insert_ne by exact Hne. apply HQ.
  - rewrite Hreg. discriminate.
Qed.

Lemma stationReducer_keeps_addressed services (k : string) (station : Station)
    (event : Event) :
  addressedTo k event ->
  Forall (addressedTo k) (eventQueue station) ->
  Forall (addressedTo k) (eventQueue (snd (stationReducer services station event))).
Proof.
  intros Ha Hq. unfold stationReducer.
  destruct (service station) as [svc|].
  - destruct (send services svc event) as [sv' [next changed]].
    destruct changed; exact Hq.
  - cbn. apply Forall_app. split; [exact Hq|]. constructor; [exact Ha|constructor].
Qed.

Lemma stationReducer_keeps_drained services (station : Station) (event : Event) :
  (is_Some (service station) -> eventQueue station = []) ->
  is_Some (service (snd (stationReducer services station event))) ->
  eventQueue (snd (stationReducer services station event)) = [].
Proof.
  unfold stationReducer. intros Hd.
  destruct (service station) as [svc|] eqn:Hs.
  - destruct (send services svc event) as [sv' [next changed]].
    destruct changed; cbn; intros _; apply Hd; eexists; reflexivity.
  - cbn. rewrite Hs. intros [? [=]].
Qed.

Lemma dispatch_keeps_addressed (event : Event) (w w' : World) :
  registers event = false ->
  dispatch event w = Some w' ->
  queuesAddressed (store w) -> queuesAddressed (store w').
Proof.
  unfold dispatch. intros Hreg Hrun.
  destruct (stationsReducer _ _ _) as [[sv st]|] eqn:E; [|discriminate].
  injection Hrun as <-. cbn [store]. intros Hq.
  exact (stationsReducer_pointwise
           (fun k station => Forall (addressedTo k) (eventQueue station))
           ltac:(cbv beta; intros sv0 k s0 e0 Ha H0;
                 apply stationReducer_keeps_addressed; assumption)
           event _ _ _ _ Hreg E Hq).
Qed.

Lemma dispatch_keeps_drained (event : Event) (w w' : World) :
  registers event = false ->
  dispatch event w = Some w' ->
  liveMeansDrained (store w) -> liveMeansDrained (store w').
Proof.
  unfold dispatch. intros Hreg Hrun.
  destruct (stationsReducer _ _ _) as [[sv st]|] eqn:E; [|discriminate].
  injection Hrun as <-. cbn [store]. intros Hd.
  exact (stationsReducer_pointwise
           (fun _ station => is_Some (service station) -> eventQueue station = [])
           ltac:(cbv beta; intros sv0 k s0 e0 _ H0;
                 apply stationReducer_keeps_drained; exact H0)
           event _ _ _ _ Hreg E Hd).
Qed.

Lemma queuesAddressed_insert (k : string) (station : Station) (stations : Stations) :
  Forall (addressedTo k) (eventQueue station) ->
  queuesAddressed stations -> queuesAddressed (<[k := station]> stations).
Proof.
  intros Hq Hall k' station'.
  destruct (decide (k = k')) as [<-|Hne].
  - rewrite lookup_insert_eq. intros [= <-]. exact Hq.
  - rewrite lookup_insert_ne by exact Hne. apply Hall.
Qed.

Lemma liveMeansDrained_insert (k : string) (station : Station) (stations : Stations) :
  (is_Some (service station) -> eventQueue station = []) ->
  liveMeansDrained stations -> liveMeansDrained (<[k := station]> stations).
Proof.
  intros Hq Hall k' station'.
  destruct (decide (k = k')) as [<-|Hne].
  - rewrite lookup_insert_eq. intros [= <-]. exact Hq.
  - rewrite lookup_insert_ne by exact Hne. apply Hall.
Qed.

Lemma getProperty_own (stations : Stations) (key : string) (station : Station) :
  stations !! key = Some station -> getProperty stations key = Own station.
Proof. unfold getProperty. intros ->. reflexivity. Qed.

Lemma getProperty_cases (stations : Stations) (key : string) :
  (exists station, stations !! key = Some station
                   /\ getProperty stations key = Own station)
  \/ (stations !! key = None /\ inherited key = true
      /\ getProperty stations key = Inherited)
  \/ (stations !! key = None /\ inherited key = false
      /\ getProperty stations key = Undefined).
Proof.
  unfold getProperty. destruct (stations !! key) as [station|].
  - left. exists station. split; reflexivity.
  - destruct (inherited key); [right; left|right; right]; repeat split.
Qed.

(** The registration effect adds a parked station with an empty queue, or
    does nothing. *)
Lemma registerEffect_result (machine : AnyMachine) (w : World) :
  registerEffect machine w
  = Some (match getProperty (store w) (machineId machine) with
          | Undefined =>
              mkWorld (interpreters w)
                (<[machineId machine :=
                     mkStation (machineId machine) machine None []
                       (initialState machine)]> (store w))
                (nextService w)
          | _ => w
          end).
Proof.
  unfold registerEffect, maybeStation.
  destruct (getProperty (store w) (machineId machine)); [reflexivity..|].
  unfold dispatch.
  rewrite (stationsReducer_register
             (registerMachine
                (mkStation (machineId machine) machine None [] (initialState machine)))
             _ (interpreters w) (store w) eq_refl eq_refl eq_refl).
  reflexivity.
Qed.

Lemma registerEffect_keeps_addressed (machine : AnyMachine) (w w' : World) :
  registerEffect machine w = Some w' ->
  queuesAddressed (store w) -> queuesAddressed (store w').
Proof.
  rewrite registerEffect_result. intros [= <-] Hq.
  destruct (getProperty (store w) (machineId machine)); [exact Hq..|].
  apply queuesAddressed_insert; [constructor|exact Hq].
Qed.

Lemma registerEffect_keeps_drained (machine : AnyMachine) (w w' : World) :
  registerEffect machine w = Some w' ->
  liveMeansDrained (store w) -> liveMeansDrained (store w').
Proof.
  rewrite registerEffect_result. intros [= <-] Hq.
  destruct (getProperty (store w) (machineId machine)); [exact Hq..|].
  apply liveMeansDrained_insert; [reflexivity|exact Hq].
Qed.

(** What the assignments of the attach effect and of its cleanup do to the
    store. *)
Lemma attachEffect_result (id : string) (svc : AnyService) (w w' : World) :
  attachEffect id svc w = Some w' ->
  (exists station,
      store w !! id = Some station
      /\ w' = mkWorld (interpreters w)
                (<[id := withService station (Some svc)]> (store w))
                (nextService w))
  \/ (store w !! id = None /\ inherited id = true /\ w' = w).
Proof.
  unfold attachEffect.
  destruct (getProperty_cases (store w) id)
    as [(station & Hl & ->)|[(Hl & Hi & ->)|(Hl & Hi & ->)]]; intros [= <-].
  - left. exists station. split; [exact Hl|reflexivity].
  - right. repeat split; assumption.
Qed.

Lemma detachEffect_result (id : string) (w w' : World) :
  detachEffect id w = Some w' ->
  (exists station,
      store w !! id = Some station
      /\ w' = mkWorld (interpreters w)
                (<[id := withService station None]> (store w))
                (nextService w))
  \/ (store w !! id = None /\ inherited id = true /\ w' = w).
Proof.
  unfold detachEffect.
  destruct (getProperty_cases (store w) id)
    as [(station & Hl & ->)|[(Hl & Hi & ->)|(Hl & Hi & ->)]]; intros [= <-].
  - left. exists station. split; [exact Hl|reflexivity].
  - right. repeat split; assumption.
Qed.

(** The drain effect: nothing for an empty queue and for an identity that
    is unknown; the batch of the queue, dispatched to the store with the
    queue emptied, otherwise. *)
Lemma drainEffect_result (id : string) (w w' : World) :
  drainEffect id w = Some w' ->
  (exists station,
      store w !! id = Some station
      /\ eventQueue station <> []
      /\ dispatch (batched (eventQueue station))
           (mkWorld (interpreters w)
              (<[id := withEventQueue station []]> (store w))
              (nextService w)) = Some w')
  \/ (w' = w
      /\ forall station, store w !! id = Some station -> eventQueue station = []).
Proof.
  unfold drainEffect.
  destruct (getProperty_cases (store w) id)
    as [(station & Hl & ->)|[(Hl & Hi & ->)|(Hl & Hi & ->)]].
  - destruct (eventQueue station) as [|e queue] eqn:Hq; cbn [length Nat.ltb Nat.leb].
    + intros [= <-]. right. split; [reflexivity|].
      intros station' Hl'. rewrite Hl in Hl'. injection Hl' as <-. exact Hq.
    + intros Hrun. left. exists station. rewrite Hq.
      split; [exact Hl|]. split; [discriminate|exact Hrun].
  - discriminate.
  - intros [= <-]. right. split; [reflexivity|]. intros station Hl'. congruence.
Qed.

Lemma attachEffect_keeps_addressed (id : string) (svc : AnyService) (w w' : World) :
  attachEffect id svc w = Some w' ->
  queuesAddressed (store w) -> queuesAddressed (store w').
Proof.
  intros [(station & Hl & ->)|(_ & _ & ->)]%attachEffect_result Hq; [|exact Hq].
  apply queuesAddressed_insert; [|exact Hq]. exact (Hq id station Hl).
Qed.

Lemma render_result (machine : AnyMachine) (w : World) :
  render machine w
  = (nextService w,
     mkWorld (fun r => if Nat.eqb r (nextService w)
                       then mkInterpreter machine
                              match store w !! machineId machine with
                              | Some station => state station
                              | None => initialState machine
                              end
                       else interpreters w r)
       (store w) (S (nextService w))).
Proof.
  unfold render, maybeStation, useMachine, getProperty.
  destruct (store w !! machineId machine); [reflexivity|].
  destruct (inherited (machineId machine)); reflexivity.
Qed.

(** Attaching creates the interpreter from the stored state and puts its
    reference into the entry; without an entry the assignment throws, or
    misses the registry when the identity is an inherited name. *)
Lemma attach_result (machine : AnyMachine) (w : World) :
  attach machine w
  = match store w !! machineId machine with
    | Some station =>
        Some (mkWorld
                (fun r => if Nat.eqb r (nextService w)
                          then mkInterpreter machine (state station)
                          else interpreters w r)
                (<[machineId machine := withService station (Some (nextService w))]>
                   (store w))
                (S (nextService w)))
    | None =>
        if inherited (machineId machine)
        then Some (mkWorld
                     (fun r => if Nat.eqb r (nextService w)
                               then mkInterpreter machine (initialState machine)
                               else interpreters w r)
                     (store w) (S (nextService w)))
        else None
    end.
Proof.
  unfold attach. rewrite render_result.
  unfold attachEffect, getProperty. cbn [store interpreters nextService].
  destruct (store w !! machineId machine); [reflexivity|].
  destruct (inherited (machineId machine)); reflexivity.
Qed.

Lemma attach_keeps_addressed (machine : AnyMachine) (w w' : World) :
  attach machine w = Some w' ->
  queuesAddressed (store w) -> queuesAddressed (store w').
Proof.
  unfold attach. rewrite render_result. intros Hrun Hq.
  exact (attachEffect_keeps_addressed _ _ _ _ Hrun Hq).
Qed.

Lemma detachEffect_keeps_addressed (id : string) (w w' : World) :
  detachEffect id w = Some w' ->
  queuesAddressed (store w) -> queuesAddressed (store w').
Proof.
  intros [(station & Hl & ->)|(_ & _ & ->)]%detachEffect_result Hq; [|exact Hq].
  apply queuesAddressed_insert; [|exact Hq]. exact (Hq id station Hl).
Qed.

Lemma detachEffect_keeps_drained (id : string) (w w' : World) :
  detachEffect id w = Some w' ->
  liveMeansDrained (store w) -> liveMeansDrained (store w').
Proof.
  intros [(station & Hl & ->)|(_ & _ & ->)]%detachEffect_result Hq; [|exact Hq].
  apply liveMeansDrained_insert; [|exact Hq]. intros [? [=]].
Qed.

Lemma drainEffect_keeps_addressed (id : string) (w w' : World) :
  drainEffect id w = Some w' ->
  queuesAddressed (store w) -> queuesAddressed (store w').
Proof.
  intros [(station & Hl & _ & Hrun)|(-> & _)]%drainEffect_result Hq; [|exact Hq].
  apply (dispatch_keeps_addressed _ _ _
           (addressedTo_registers id _ (Hq id station Hl)) Hrun).
  cbn [store]. apply queuesAddressed_insert; [constructor|exact Hq].
Qed.

(** After the drain effect the entry is drained, whatever it was before, and
    the other entries stay as the invariant wants them. *)
Lemma drainEffect_drains (id : string) (w w' : World) :
  drainEffect id w = Some w' ->
  queuesAddressed (store w) ->
  (forall k station,
      store w !! k = Some station -> k <> id ->
      is_Some (service station) -> eventQueue station = []) ->
  liveMeansDrained (store w').
Proof.
  intros [(station & Hl & _ & Hrun)|(-> & Hempty)]%drainEffect_result Hq Hothers.
  - apply (dispatch_keeps_drained _ _ _
             (addressedTo_registers id _ (Hq id station Hl)) Hrun).
    cbn [store]. intros k station'.
    destruct (decide (id = k)) as [<-|Hne].
    + rewrite lookup_insert_eq. intros [= <-]. reflexivity.
    + rewrite lookup_insert_ne by exact Hne. intros Hk. apply (Hothers k); auto.
  - intros k station' Hk.
    destruct (decide (k = id)) as [->|Hne].
    + intros _. exact (Hempty station' Hk).
    + apply (Hothers k); auto.
Qed.

Lemma useSupervisedMachine_keeps (machine : AnyMachine) (w w' : World) :
  useSupervisedMachine machine w = Some w' ->
  queuesAddressed (store w) /\ liveMeansDrained (store w) ->
  queuesAddressed (store w') /\ liveMeansDrained (store w').
Proof.
  unfold useSupervisedMachine. rewrite render_result. intros Hrun [Hq Hd].
  destruct (registerEffect machine _) as [w2|] eqn:Hreg; [|discriminate].
  destruct (attachEffect (machineId machine) _ w2) as [w3|] eqn:Hatt; [|discriminate].
  pose proof (registerEffect_keeps_addressed _ _ _ Hreg Hq) as Hq2.
  pose proof (registerEffect_keeps_drained _ _ _ Hreg Hd) as Hd2.
  pose proof (attachEffect_keeps_addressed _ _ _ _ Hatt Hq2) as Hq3.
  split; [exact (drainEffect_keeps_addressed _ _ _ Hrun Hq3)|].
  apply (drainEffect_drains _ _ _ Hrun Hq3).
  intros k station' Hk Hne.
  apply attachEffect_result in Hatt as [(station & Hl & ->)|(_ & _ & ->)].
  - cbn [store] in Hk.
    rewrite lookup_insert_ne in Hk by congruence. exact (Hd2 k station' Hk).
  - exact (Hd2 k station' Hk).
Qed.

(** A handler that has called the send function leaves the result of the
    dispatch, or, when the dispatch threw, the store as it was. *)
Lemma afterSend_cases (id : string) (event : SupervisedEvent) (w : World) :
  sendToStore id event w = Some (afterSend id event w)
  \/ (sendToStore id event w = None
      /\ store (afterSend id event w) = store w
      /\ nextService (afterSend id event w) = nextService w).
Proof.
  unfold sendToStore, dispatch, afterSend, stationsReducer.
  destruct (outcome (interpreters w) (store w) (dispatched id event))
    as [services [stations|]]; cbn [returned default store nextService].
  - left. reflexivity.
  - right. repeat split.
Qed.

Lemma commit_keeps (c : Commit) (w w' : World) :
  commitAllowed c ->
  commit c w = Some w' ->
  queuesAddressed (store w) /\ liveMeansDrained (store w) ->
  queuesAddressed (store w') /\ liveMeansDrained (store w').
Proof.
  intros Hsend Hrun [Hq Hd].
  destruct c as [machine|id|id event]; cbn [commit attempt] in Hrun.
  - exact (useSupervisedMachine_keeps machine w w' Hrun (conj Hq Hd)).
  - split; [exact (detachEffect_keeps_addressed _ _ _ Hrun Hq)
           |exact (detachEffect_keeps_drained _ _ _ Hrun Hd)].
  - specialize (Hsend id event eq_refl). injection Hrun as <-.
    destruct (afterSend_cases id event w) as [Hret|(_ & -> & _)];
      [|split; assumption].
    split; [exact (dispatch_keeps_addressed _ _ _ Hsend Hret Hq)
           |exact (dispatch_keeps_drained _ _ _ Hsend Hret Hd)].
Qed.

Lemma reachableByCommits_keeps (w : World) :
  reachableByCommits w ->
  queuesAddressed (store w) /\ liveMeansDrained (store w).
Proof.
  induction 1 as [services|c w w' _ IH Hsend Hrun].
  - split; intros k station Hk; cbn in Hk; rewrite lookup_empty in Hk; discriminate.
  - exact (commit_keeps c w w' Hsend Hrun IH).
Qed.

(** C4, as amended.  In every registry state reached by whole commits (a
    mount with its registration, attachment and drain effects, an unmount,
    or a send of machine events), every station that has a live interpreter
    attached has an empty pending-event queue: a queue is non-empty only
    while no interpreter is attached. *)
Theorem live_stations_are_drained (w : World) :
  reachableByCommits w ->
  liveMeansDrained (store w)
  /\ (forall id station,
        store w !! id = Some station ->
        eventQueue station <> [] -> service station = None).
Proof.
  intros Hw.
  enough (H : queuesAddressed (store w) /\ liveMeansDrained (store w)).
  { destruct H as [_ Hd]. split; [exact Hd|].
    intros id station Hl Hne.
    destruct (service station) as [svc|] eqn:Hs; [|reflexivity].
    exfalso. apply Hne. apply (Hd id station Hl). rewrite Hs. eexists; reflexivity. }
  induction Hw as [services|c w w' _ IH Hsend Hrun].
  - split; intros k station Hk; cbn in Hk; rewrite lookup_empty in Hk; discriminate.
  - exact (commit_keeps c w w' Hsend Hrun IH).
Qed.

(** ** The effects one by one, and the states within a commit *)

Lemma run_keeps_addressed (e : Effect) (w w' : World) :
  effectAllowed e ->
  run e w = Some w' ->
  queuesAddressed (store w) -> queuesAddressed (store w').
Proof.
  intros Hsend Hrun Hq. destruct e as [machine|machine|id|id|id event]; cbn [run] in Hrun.
  - exact (registerEffect_keeps_addressed _ _ _ Hrun Hq).
  - exact (attach_keeps_addressed _ _ _ Hrun Hq).
  - exact (detachEffect_keeps_addressed _ _ _ Hrun Hq).
  - exact (drainEffect_keeps_addressed _ _ _ Hrun Hq).
  - exact (dispatch_keeps_addressed _ _ _ (Hsend id event eq_refl) Hrun Hq).
Qed.

(** The states within a mount, spelled out. *)
Lemma reachable_cases (w : World) :
  reachable w ->
  exists w0,
    reachableByCommits w0
    /\ interpreters w = interpreters w0 /\ nextService w = nextService w0
       /\ store w = store w0
    \/ exists machine,
         let fresh := mkInterpreter machine
                        match store w0 !! machineId machine with
                        | Some station => state station
                        | None => initialState machine
                        end in
         reachableByCommits w0
         /\ interpreters w
            = (fun r => if Nat.eqb r (nextService w0) then fresh
                        else interpreters w0 r)
         /\ nextService w = S (nextService w0)
         /\ (store w = store w0
             \/ (store w0 !! machineId machine = None
                 /\ inherited (machineId machine) = false
                 /\ store w
                    = <[machineId machine :=
                          mkStation (machineId machine) machine None []
                            (initialState machine)]> (store w0))
             \/ (exists station,
                    store w0 !! machineId machine = Some station
                    /\ store w
                       = <[machineId machine :=
                             withService station (Some (nextService w0))]>
                           (store w0))
             \/ (store w0 !! machineId machine = None
                 /\ inherited (machineId machine) = false
                 /\ store w
                    = <[machineId machine :=
                          mkStation (machineId machine) machine
                            (Some (nextService w0)) [] (initialState machine)]>
                        (store w0))).
Proof.
  intros [w0 Hw|machine w0 svc w1 Hw Hr|machine w0 svc w1 w2 Hw Hr Hreg
         |machine w0 svc w1 w2 w3 Hw Hr Hreg Hatt]; exists w0.
  - left. repeat split; [exact Hw|..]; reflexivity.
  - right. exists machine. rewrite render_result in Hr. injection Hr as <- <-.
    split; [exact Hw|]. split; [reflexivity|]. split; [reflexivity|].
    left. reflexivity.
  - right. exists machine. rewrite render_result in Hr. injection Hr as <- <-.
    rewrite registerEffect_result in Hreg. injection Hreg as <-.
    cbn [store interpreters nextService].
    destruct (getProperty_cases (store w0) (machineId machine))
      as [(station & Hl & ->)|[(Hl & Hi & ->)|(Hl & Hi & ->)]];
      cbn [store interpreters nextService];
      (split; [exact Hw|]); (split; [reflexivity|]); (split; [reflexivity|]).
    + left. reflexivity.
    + left. reflexivity.
    + right. left. repeat split; assumption.
  - right. exists machine. rewrite render_result in Hr. injection Hr as <- <-.
    rewrite registerEffect_result in Hreg. injection Hreg as <-.
    cbn [store interpreters nextService] in Hatt.
    destruct (getProperty_cases (store w0) (machineId machine))
      as [(station & Hl & Hg)|[(Hl & Hi & Hg)|(Hl & Hi & Hg)]];
      rewrite Hg in Hatt;
      apply attachEffect_result in Hatt
        as [(station' & Hl' & ->)|(Hl' & Hi' & ->)];
      cbn [store interpreters nextService] in *;
      (split; [exact Hw|]); (split; [reflexivity|]); (split; [reflexivity|]).
    + right. right. left. exists station. rewrite Hl in Hl'. injection Hl' as <-.
      split; [exact Hl|reflexivity].
    + congruence.
    + congruence.
    + left. reflexivity.
    + right. right. right. rewrite lookup_insert_eq in Hl'. injection Hl' as <-.
      rewrite insert_insert_eq. repeat split; assumption.
    + rewrite lookup_insert_eq in Hl'. discriminate.
Qed.

Lemma reachable_addressed (w : World) :
  reachable w -> queuesAddressed (store w).
Proof.
  intros [w0 Hw|machine w0 svc w1 Hw Hr|machine w0 svc w1 w2 Hw Hr Hreg
         |machine w0 svc w1 w2 w3 Hw Hr Hreg Hatt];
    pose proof (proj1 (reachableByCommits_keeps w0 Hw)) as Hq;
    [exact Hq|..]; rewrite render_result in Hr; injection Hr as <- <-.
  - exact Hq.
  - exact (registerEffect_keeps_addressed _ _ _ Hreg Hq).
  - apply (attachEffect_keeps_addressed _ _ _ _ Hatt).
    exact (registerEffect_keeps_addressed _ _ _ Hreg Hq).
Qed.

(** A mount is its three effects in a row. *)
Lemma useSupervisedMachine_effects (machine : AnyMachine) (w : World) :
  useSupervisedMachine machine w
  = match registerEffect machine w with
    | Some w1 =>
        match attach machine w1 with
        | Some w2 => drainEffect (machineId machine) w2
        | None => None
        end
    | None => None
    end.
Proof.
  unfold useSupervisedMachine, attach.
  rewrite (registerEffect_result machine w), render_result, registerEffect_result.
  cbn [store interpreters nextService].
  destruct (getProperty_cases (store w) (machineId machine))
    as [(station & Hl & ->)|[(Hl & Hi & ->)|(Hl & Hi & ->)]];
    rewrite render_result; cbn [store interpreters nextService].
  - rewrite Hl. reflexivity.
  - rewrite Hl. reflexivity.
  - rewrite Hl, lookup_insert_eq. cbn [state].
    unfold attachEffect, getProperty. cbn [store interpreters nextService].
    rewrite lookup_insert_eq. reflexivity.
Qed.

Lemma reachableByCommits_reachable (w : World) :
  reachableByCommits w -> reachable w.
Proof. apply reachable_settled. Qed.

(** ** Replay *)

Lemma withState_same (station : Station) :
  withState station (state station) = station.
Proof. destruct station; reflexivity. Qed.

Lemma send_lookup services (svc r : AnyService) (event : Event) :
  fst (send services svc event) r
  = if Nat.eqb r svc
    then mkInterpreter (imachine (services svc))
           (fst (transition (imachine (services svc)) (icurrent (services svc)) event))
    else services r.
Proof. reflexivity. Qed.

Lemma feed_cons (svc : AnyService) (e : Event) (evs : list Event) services :
  feed svc (e :: evs) services = feed svc evs (fst (send services svc e)).
Proof. reflexivity. Qed.

Lemma feed_current (svc : AnyService) (evs : list Event) :
  forall services,
    imachine (feed svc evs services svc) = imachine (services svc)
    /\ icurrent (feed svc evs services svc)
       = fold_left (fun current event =>
                      fst (transition (imachine (services svc)) current event))
           evs (icurrent (services svc)).
Proof.
  induction evs as [|e evs IH]; intros services; [split; reflexivity|].
  rewrite feed_cons. destruct (IH (fst (send services svc e))) as [Hm Hc].
  rewrite Hm, Hc, send_lookup, Nat.eqb_refl. cbn [imachine icurrent fold_left].
  split; reflexivity.
Qed.

Lemma replay_fold (machine : AnyMachine) (seed : XState) (evs : list Event) :
  replay machine seed evs
  = fold_left (fun current event => fst (transition machine current event)) evs seed.
Proof.
  unfold replay.
  exact (proj2 (feed_current 0 evs (fun _ => mkInterpreter machine seed))).
Qed.

Section Contract.

Hypothesis contract : unchangedMeansSame.

(** With the contract, a live station stores after each delivery the state
    that its interpreter is in. *)
Lemma stationReducer_follows services (station : Station) (event : Event)
    (svc : AnyService) :
  service station = Some svc ->
  icurrent (services svc) = state station ->
  fst (stationReducer services station event) = fst (send services svc event)
  /\ snd (stationReducer services station event)
     = withState station (icurrent (fst (send services svc event) svc)).
Proof.
  intros Hs Hsync. unfold stationReducer. rewrite Hs.
  rewrite send_lookup, Nat.eqb_refl. cbn [icurrent]. unfold send.
  pose proof (contract (imachine (services svc)) (icurrent (services svc)) event) as Hc.
  destruct (transition _ _ event) as [next changed]. cbn [fst snd] in Hc |- *.
  destruct changed; cbn [fst snd]; [split; reflexivity|].
  split; [reflexivity|].
  rewrite (Hc eq_refl), Hsync, withState_same. reflexivity.
Qed.

(** Delivering a queue of events addressed to a live station, through the
    router, feeds them to its interpreter in order and leaves the
    interpreter's state in the station. *)
Lemma applyInOrder_live (id : string) (svc : AnyService) (queue : list Event) :
  forall services stations (station : Station),
    stations !! id = Some station ->
    service station = Some svc ->
    icurrent (services svc) = state station ->
    Forall (addressedTo id) queue ->
    applyInOrder queue (Some (services, stations))
    = Some (feed svc queue services,
            <[id := withState station (icurrent (feed svc queue services svc))]>
              stations).
Proof.
  induction queue as [|e queue IH]; intros services stations station Hl Hs Hsync Hall.
  - cbn [applyInOrder fold_left feed]. rewrite Hsync, withState_same, insert_id by exact Hl.
    reflexivity.
  - apply Forall_cons in Hall as [(Hp & Ht & Hk) Hall].
    apply isPlain_spec in Hp as [Hb Hr].
    rewrite applyInOrder_cons, stationsReducer_single by assumption.
    rewrite Hk, Hl.
    destruct (stationReducer_follows services station e svc Hs Hsync) as [-> ->].
    rewrite (IH _ _ (withState station (icurrent (fst (send services svc e) svc))))
      by (try apply lookup_insert_eq; auto).
    rewrite insert_insert_eq, feed_cons. reflexivity.
Qed.

(** The drain effect on a live station whose interpreter is in the stored
    state. *)
Lemma drainEffect_replays (id : string) (w : World) (station : Station)
    (svc : AnyService) :
  store w !! id = Some station ->
  service station = Some svc ->
  eventQueue station <> [] ->
  Forall (addressedTo id) (eventQueue station) ->
  icurrent (interpreters w svc) = state station ->
  drainEffect id w
  = Some (mkWorld (feed svc (eventQueue station) (interpreters w))
            (<[id := withState (withEventQueue station [])
                       (replay (imachine (interpreters w svc)) (state station)
                          (eventQueue station))]> (store w))
            (nextService w)).
Proof.
  intros Hl Hs Hne Hall Hsync. unfold drainEffect.
  rewrite (getProperty_own _ _ _ Hl).
  destruct (eventQueue station) as [|e queue] eqn:Hq; [congruence|].
  cbn [length Nat.ltb Nat.leb]. unfold dispatch. cbn [interpreters store nextService].
  rewrite (stationsReducer_batch (batched (e :: queue)) (e :: queue) _ _ eq_refl eq_refl).
  rewrite (applyInOrder_live id svc (e :: queue) (interpreters w) _
             (withEventQueue station []) (lookup_insert_eq _ _ _) Hs Hsync Hall).
  rewrite insert_insert_eq.
  rewrite (proj2 (feed_current svc (e :: queue) (interpreters w))), replay_fold, Hsync.
  reflexivity.
Qed.

(** *** Attached interpreters stay in the stored state *)

Lemma inSync_insert_parked services (n : AnyService) (k : string)
    (station : Station) (stations : Stations) :
  service station = None ->
  inSync services n stations -> inSync services n (<[k := station]> stations).
Proof.
  intros Hs [H1 H2]. split.
  - intros k' s svc. destruct (decide (k = k')) as [<-|Hne].
    + rewrite lookup_insert_eq. intros [= <-]. congruence.
    + rewrite lookup_insert_ne by exact Hne. apply H1.
  - intros k1 k2 s1 s2 svc.
    destruct (decide (k = k1)) as [<-|Hne1];
      [rewrite lookup_insert_eq; intros [= <-]; congruence|].
    destruct (decide (k = k2)) as [<-|Hne2];
      [rewrite (lookup_insert_eq stations k); intros _ [= <-]; congruence|].
    rewrite !lookup_insert_ne by assumption. apply H2.
Qed.

(** Replacing an entry by a station with the same interpreter, in the state
    the interpreter is in. *)
Lemma inSync_insert_live services services' (n : AnyService) (k : string)
    (station station' : Station) (stations : Stations) :
  stations !! k = Some station ->
  service station' = service station ->
  (forall svc, service station = Some svc ->
               icurrent (services' svc) = state station') ->
  (forall svc, service station <> Some svc -> services' svc = services svc) ->
  inSync services n stations -> inSync services' n (<[k := station']> stations).
Proof.
  intros Hl Hs Hstate Hother [H1 H2].
  assert (Hold : forall k' s, <[k := station']> stations !! k' = Some s ->
                 exists s0, stations !! k' = Some s0 /\ service s0 = service s
                            /\ (k' <> k -> s0 = s) /\ (k' = k -> s = station')).
  { intros k' s. destruct (decide (k = k')) as [<-|Hne].
    - rewrite lookup_insert_eq. intros [= <-]. exists station.
      repeat split; auto; congruence.
    - rewrite lookup_insert_ne by exact Hne. intros Hk. exists s.
      repeat split; auto; congruence. }
  split.
  - intros k' s svc Hk Hsvc.
    destruct (Hold k' s Hk) as (s0 & Hk0 & Hs0 & Hne & Heq).
    rewrite <- Hs0 in Hsvc. destruct (H1 k' s0 svc Hk0 Hsvc) as [Hlt Hcur].
    split; [exact Hlt|].
    destruct (decide (k' = k)) as [->|Hk'].
    + rewrite (Heq eq_refl). apply Hstate. congruence.
    + rewrite <- (Hne Hk'), Hother; [exact Hcur|].
      intros Hshare. apply Hk'. exact (H2 k' k s0 station svc Hk0 Hl Hsvc Hshare).
  - intros k1 k2 s1 s2 svc Hk1 Hk2 Hs1 Hs2.
    destruct (Hold k1 s1 Hk1) as (s01 & Hk01 & Hs01 & _).
    destruct (Hold k2 s2 Hk2) as (s02 & Hk02 & Hs02 & _).
    apply (H2 k1 k2 s01 s02 svc); congruence.
Qed.

Lemma stationReducer_keeps_sync (n : AnyService) services (stations : Stations)
    (event : Event) (station : Station) :
  stations !! propertyKey (to event) = Some station ->
  inSync services n stations ->
  inSync (fst (stationReducer services station event)) n
    (<[propertyKey (to event) := snd (stationReducer services station event)]> stations).
Proof.
  intros Hl Hsync.
  destruct (service station) as [svc|] eqn:Hs.
  - destruct (proj1 Hsync _ station svc Hl Hs) as [_ Hcur].
    destruct (stationReducer_follows services station event svc Hs Hcur) as [-> ->].
    apply (inSync_insert_live services _ n _ station); auto.
    + intros svc' Hsvc'. rewrite Hs in Hsvc'. injection Hsvc' as <-. reflexivity.
    + intros svc' Hsvc'. rewrite send_lookup.
      destruct (Nat.eqb_spec svc' svc) as [->|_]; [congruence|reflexivity].
  - unfold stationReducer. rewrite Hs. cbn [fst snd].
    apply inSync_insert_parked; [exact Hs|exact Hsync].
Qed.

Lemma dispatch_keeps_sync (event : Event) (w w' : World) :
  registers event = false ->
  dispatch event w = Some w' ->
  inSync (interpreters w) (nextService w) (store w) ->
  inSync (interpreters w') (nextService w') (store w').
Proof.
  unfold dispatch. intros Hreg Hrun.
  destruct (stationsReducer _ _ _) as [[sv st]|] eqn:E; [|discriminate].
  injection Hrun as <-. cbn [interpreters store nextService].
  refine (stationsReducer_preserves (fun sv st => inSync sv (nextService w) st)
            _ event _ _ _ _ _ E).
  - intros sv0 st0 e station _ _ Hl. apply stationReducer_keeps_sync. exact Hl.
  - rewrite Hreg. discriminate.
Qed.

Lemma run_keeps_sync (e : Effect) (w w' : World) :
  effectAllowed e ->
  run e w = Some w' ->
  queuesAddressed (store w) ->
  inSync (interpreters w) (nextService w) (store w) ->
  inSync (interpreters w') (nextService w') (store w').
Proof.
  intros Hsend Hrun Hq Hsync.
  destruct e as [machine|machine|id|id|id event]; cbn [run] in Hrun.
  - rewrite registerEffect_result in Hrun. injection Hrun as <-.
    destruct (getProperty (store w) (machineId machine)); [exact Hsync..|].
    cbn [interpreters store nextService].
    apply inSync_insert_parked; [reflexivity|exact Hsync].
  - rewrite attach_result in Hrun.
    destruct Hsync as [H1 H2].
    destruct (store w !! machineId machine) as [station|] eqn:Hl.
    + injection Hrun as <-. cbn [interpreters store nextService]. split.
      * intros k s svc. destruct (decide (machineId machine = k)) as [<-|Hne].
        -- rewrite lookup_insert_eq. intros [= <-] [= <-].
           rewrite Nat.eqb_refl. split; [lia|reflexivity].
        -- rewrite lookup_insert_ne by exact Hne. intros Hk Hs.
           destruct (H1 k s svc Hk Hs) as [Hlt Hcur].
           destruct (Nat.eqb_spec svc (nextService w)) as [->|_]; [lia|].
           split; [lia|exact Hcur].
      * intros k1 k2 s1 s2 svc.
        destruct (decide (machineId machine = k1)) as [<-|Hne1];
          destruct (decide (machineId machine = k2)) as [<-|Hne2]; auto.
        -- rewrite lookup_insert_eq, lookup_insert_ne by exact Hne2.
           intros [= <-] Hk2 [= <-] Hs2.
           destruct (H1 k2 s2 _ Hk2 Hs2) as [Hlt _]. lia.
        -- rewrite lookup_insert_eq, lookup_insert_ne by exact Hne1.
           intros Hk1 [= <-] Hs1 [= <-].
           destruct (H1 k1 s1 _ Hk1 Hs1) as [Hlt _]. lia.
        -- rewrite !lookup_insert_ne by assumption. apply H2.
    + destruct (inherited (machineId machine)); [|discriminate].
      injection Hrun as <-. cbn [interpreters store nextService]. split.
      * intros k s svc Hk Hs. destruct (H1 k s svc Hk Hs) as [Hlt Hcur].
        destruct (Nat.eqb_spec svc (nextService w)) as [->|_]; [lia|].
        split; [lia|exact Hcur].
      * exact H2.
  - apply detachEffect_result in Hrun as [(station & Hl & ->)|(_ & _ & ->)];
      [|exact Hsync].
    cbn [interpreters store nextService].
    apply inSync_insert_parked; [reflexivity|exact Hsync].
  - apply drainEffect_result in Hrun as [(station & Hl & _ & Hrun)|(-> & _)];
      [|exact Hsync].
    apply (dispatch_keeps_sync _ _ _
             (addressedTo_registers id _ (Hq id station Hl)) Hrun).
    cbn [interpreters store nextService].
    apply (inSync_insert_live (interpreters w) _ _ _ station); auto.
    intros svc Hs. exact (proj2 (proj1 Hsync id station svc Hl Hs)).
  - exact (dispatch_keeps_sync _ _ _ (Hsend id event eq_refl) Hrun Hsync).
Qed.

Lemma attempt_keeps_sync (c : Commit) (w w' : World) :
  commitAllowed c ->
  attempt c w = Some w' ->
  queuesAddressed (store w) ->
  inSync (interpreters w) (nextService w) (store w) ->
  queuesAddressed (store w')
  /\ inSync (interpreters w') (nextService w') (store w').
Proof.
  intros Hsend Hrun Hq Hsync.
  destruct c as [machine|id|id event]; cbn [attempt] in Hrun.
  - rewrite useSupervisedMachine_effects in Hrun.
    destruct (registerEffect machine w) as [w1|] eqn:H1; [|discriminate].
    destruct (attach machine w1) as [w2|] eqn:H2; [|discriminate].
    assert (HR : effectAllowed (Register machine)) by (intros ? ? [=]).
    assert (HA : effectAllowed (Attach machine)) by (intros ? ? [=]).
    assert (HD : effectAllowed (Drain (machineId machine))) by (intros ? ? [=]).
    pose proof (run_keeps_addressed (Register machine) w w1 HR H1 Hq) as Hq1.
    pose proof (run_keeps_sync (Register machine) w w1 HR H1 Hq Hsync) as Hs1.
    pose proof (run_keeps_addressed (Attach machine) w1 w2 HA H2 Hq1) as Hq2.
    pose proof (run_keeps_sync (Attach machine) w1 w2 HA H2 Hq1 Hs1) as Hs2.
    split.
    + exact (run_keeps_addressed (Drain (machineId machine)) w2 w' HD Hrun Hq2).
    + exact (run_keeps_sync (Drain (machineId machine)) w2 w' HD Hrun Hq2 Hs2).
  - split.
    + exact (detachEffect_keeps_addressed _ _ _ Hrun Hq).
    + refine (run_keeps_sync (Detach id) w w' _ Hrun Hq Hsync). intros ? ? [=].
  - split.
    + exact (dispatch_keeps_addressed _ _ _ (Hsend id event eq_refl) Hrun Hq).
    + exact (dispatch_keeps_sync _ _ _ (Hsend id event eq_refl) Hrun Hsync).
Qed.

Lemma reachableWithoutThrow_sync (w : World) :
  reachableWithoutThrow w ->
  queuesAddressed (store w)
  /\ inSync (interpreters w) (nextService w) (store w).
Proof.
  induction 1 as [services|c w w' Hw [Hq Hsync] Hsend Hrun].
  - split; [|split].
    + intros k station Hk. cbn in Hk. rewrite lookup_empty in Hk. discriminate.
    + intros k station svc Hk. cbn in Hk. rewrite lookup_empty in Hk. discriminate.
    + intros k1 k2 s1 s2 svc Hk. cbn in Hk. rewrite lookup_empty in Hk. discriminate.
  - exact (attempt_keeps_sync c w w' Hsend Hrun Hq Hsync).
Qed.

End Contract.

(** C3. Let the interpreter keep the contract of its [changed] flag.  For
    every reachable state and every station with a live interpreter and a
    non-empty pending queue, the drain effect (which clears the queue and
    redispatches its events as one batch through the router) succeeds, and
    leaves the station with an empty queue, the same interpreter, and a
    stored state equal to the state of a fresh interpreter of the same
    machine that is seeded with the station's state before the drain and fed
    the same events in the same order. *)
Theorem drain_is_replay (w : World) (id : string) (station : Station)
    (svc : AnyService) :
  unchangedMeansSame ->
  reachable w ->
  store w !! id = Some station ->
  service station = Some svc ->
  eventQueue station <> [] ->
  exists w' station',
    drainEffect id w = Some w'
    /\ store w' !! id = Some station'
    /\ eventQueue station' = []
    /\ service station' = Some svc
    /\ state station'
       = replay (imachine (interpreters w svc)) (state station) (eventQueue station).
Proof.
  intros contract Hw Hl Hs Hne.
  pose proof (reachable_addressed w Hw id station Hl) as Hall.
  assert (Hcur : icurrent (interpreters w svc) = state station).
  { assert (Hsettled : forall w0, reachableByCommits w0 ->
                         store w0 !! id = Some station -> False).
    { intros w0 Hw0 Hl0. apply Hne.
      apply (proj2 (reachableByCommits_keeps w0 Hw0) id station Hl0).
      rewrite Hs. eexists; reflexivity. }
    destruct (reachable_cases w Hw) as [w0 [(Hw0 & _ & _ & Hst)|(machine & Hcase)]].
    { exfalso. apply (Hsettled w0 Hw0). rewrite <- Hst. exact Hl. }
    cbv zeta in Hcase.
    destruct Hcase as (Hw0 & Hint & _ & Hst).
    destruct Hst as [Hst|[(Hl0 & _ & Hst)|[(station0 & Hl0 & Hst)|(Hl0 & _ & Hst)]]].
    - exfalso. apply (Hsettled w0 Hw0). rewrite <- Hst. exact Hl.
    - rewrite Hst in Hl. destruct (decide (machineId machine = id)) as [<-|Hk].
      + rewrite lookup_insert_eq in Hl. injection Hl as <-. discriminate.
      + rewrite lookup_insert_ne in Hl by exact Hk. exfalso. exact (Hsettled w0 Hw0 Hl).
    - rewrite Hst in Hl. destruct (decide (machineId machine = id)) as [<-|Hk].
      + rewrite lookup_insert_eq in Hl. injection Hl as <-.
        cbn [withService service] in Hs. injection Hs as <-.
        rewrite Hint, Nat.eqb_refl, Hl0. reflexivity.
      + rewrite lookup_insert_ne in Hl by exact Hk. exfalso. exact (Hsettled w0 Hw0 Hl).
    - rewrite Hst in Hl. destruct (decide (machineId machine = id)) as [<-|Hk].
      + rewrite lookup_insert_eq in Hl. injection Hl as <-.
        exfalso. apply Hne. reflexivity.
      + rewrite lookup_insert_ne in Hl by exact Hk. exfalso. exact (Hsettled w0 Hw0 Hl). }
  rewrite (drainEffect_replays contract id w station svc Hl Hs Hne Hall Hcur).
  eexists _, _. split; [reflexivity|]. cbn [store].
  rewrite lookup_insert_eq. split; [reflexivity|].
  split; [reflexivity|]. split; [exact Hs|reflexivity].
Qed.

Lemma commitAll_reachable (commits : list Commit) :
  forall w w',
    reachableByCommits w -> Forall commitAllowed commits ->
    commitAll commits w = Some w' -> reachableByCommits w'.
Proof.
  induction commits as [|c commits IH]; intros w w' Hw Hall Hrun.
  - injection Hrun as <-. exact Hw.
  - apply Forall_cons in Hall as [Hc Hall]. cbn [commitAll reduce] in Hrun.
    destruct (commit c w) as [w1|] eqn:H1; [|discriminate].
    exact (IH w1 w' (commits_step c w w1 Hw Hc H1) Hall Hrun).
Qed.

Lemma attemptAll_reachable (commits : list Commit) :
  forall w w',
    reachableWithoutThrow w -> Forall commitAllowed commits ->
    attemptAll commits w = Some w' -> reachableWithoutThrow w'.
Proof.
  induction commits as [|c commits IH]; intros w w' Hw Hall Hrun.
  - injection Hrun as <-. exact Hw.
  - apply Forall_cons in Hall as [Hc Hall]. cbn [attemptAll reduce] in Hrun.
    destruct (attempt c w) as [w1|] eqn:H1; [|discriminate].
    exact (IH w1 w' (quiet_step c w w1 Hw Hc H1) Hall Hrun).
Qed.

(** * More about the router *)

Lemma deliveries_unfold (event : Event) :
  deliveries event =
  if isBatchedEvent event then
    match events event with
    | Some evs => concat (map deliveries evs)
    | None => [event]
    end
  else if isRegisterEvent event then [event]
  else match to event with
       | ToArray ids => map (fun id => withTo event (ToString id)) ids
       | _ => [event]
       end.
Proof. destruct event; reflexivity. Qed.

Lemma applyInOrder_one (event : Event) services stations :
  applyInOrder [event] (Some (services, stations))
  = stationsReducer services stations event.
Proof. reflexivity. Qed.

Lemma applyInOrder_concat (evs : list Event) :
  (forall e, In e evs ->
     forall services stations,
       stationsReducer services stations e
       = applyInOrder (deliveries e) (Some (services, stations))) ->
  forall start,
    applyInOrder evs start = applyInOrder (concat (map deliveries evs)) start.
Proof.
  induction evs as [|e evs IH]; intros Hall start; [reflexivity|].
  cbn [map concat]. rewrite applyInOrder_app.
  destruct start as [[services stations]|].
  - rewrite applyInOrder_cons, (Hall e (or_introl eq_refl)).
    apply IH. intros e' He'. apply Hall. right; exact He'.
  - rewrite !applyInOrder_none. reflexivity.
Qed.

Lemma stationsReducer_deliveries (n : nat) :
  forall event services stations,
    depth event <= n ->
    stationsReducer services stations event
    = applyInOrder (deliveries event) (Some (services, stations)).
Proof.
  induction n as [|n IH]; intros event services stations Hn.
  { pose proof (depth_pos event). lia. }
  rewrite depth_unfold in Hn.
  rewrite stationsReducer_unfold, deliveries_unfold.
  destruct (isBatchedEvent event) eqn:Hb.
  - destruct (events event) as [evs|] eqn:He.
    + rewrite reduce_applyInOrder. apply applyInOrder_concat.
      intros e Hin sv st. apply IH.
      pose proof (depth_member evs e Hin). lia.
    + rewrite applyInOrder_one, stationsReducer_unfold, Hb, He. reflexivity.
  - destruct (isRegisterEvent event) eqn:Hr.
    + rewrite applyInOrder_one, stationsReducer_unfold, Hb, Hr. reflexivity.
    + destruct (to event) as [|i|ids] eqn:Ht.
      * rewrite applyInOrder_one, stationsReducer_unfold, Hb, Hr, Ht. reflexivity.
      * rewrite applyInOrder_one, stationsReducer_unfold, Hb, Hr, Ht. reflexivity.
      * apply stationsReducer_batch; reflexivity.
Qed.

Lemma deliveries_kinds (n : nat) :
  forall event,
    depth event <= n ->
    Forall (fun d =>
              (isBatchedEvent d = true /\ events d = None)
              \/ (isBatchedEvent d = false /\ isRegisterEvent d = true)
              \/ (isPlain d = true /\ forall ids, to d <> ToArray ids))
      (deliveries event).
Proof.
  induction n as [|n IH]; intros event Hn.
  { pose proof (depth_pos event). lia. }
  rewrite depth_unfold in Hn. rewrite deliveries_unfold.
  destruct (isBatchedEvent event) eqn:Hb.
  - destruct (events event) as [evs|] eqn:He.
    + assert (Hd : forall e, In e evs -> depth e <= n).
      { intros e Hin. pose proof (depth_member evs e Hin). lia. }
      clear Hn He. induction evs as [|e evs IHevs]; [constructor|].
      cbn [map concat]. apply Forall_app. split.
      * apply IH. apply Hd. left; reflexivity.
      * apply IHevs. intros e' He'. apply Hd. right; exact He'.
    + repeat constructor; auto.
  - destruct (isRegisterEvent event) eqn:Hr.
    + constructor; [|constructor]. right; left; auto.
    + assert (Hp : isPlain event = true) by (apply isPlain_spec; auto).
      destruct (to event) as [|i|ids] eqn:Ht.
      * constructor; [|constructor]. right; right. split; [exact Hp|].
        rewrite Ht. discriminate.
      * constructor; [|constructor]. right; right. split; [exact Hp|].
        rewrite Ht. discriminate.
      * apply Forall_forall. intros d Hd.
        apply list_elem_of_fmap in Hd as (i & -> & _).
        right; right. split; [exact Hp|]. cbn. discriminate.
Qed.

(** X1. The router is the left fold of its own non-recursive cases: applied
    to any event, it equals the fold of the router over the event's
    deliveries (nested batches flattened, array targets expanded, in order),
    and each delivery is a registration, an event with a single target, or a
    batch without [events]. *)
Theorem router_flattens (event : Event) services stations :
  stationsReducer services stations event
  = applyInOrder (deliveries event) (Some (services, stations))
  /\ Forall (fun d =>
               (isBatchedEvent d = true /\ events d = None)
               \/ (isBatchedEvent d = false /\ isRegisterEvent d = true)
               \/ (isPlain d = true /\ forall ids, to d <> ToArray ids))
       (deliveries event).
Proof.
  split.
  - apply (stationsReducer_deliveries (depth event)). lia.
  - apply (deliveries_kinds (depth event)). lia.
Qed.

Lemma stationsReducer_wellFormed_within (n : nat) :
  forall event services stations,
    depth event <= n ->
    is_Some (stationsReducer services stations event) ->
    wellFormed event = true.
Proof.
  induction n as [|n IH]; intros event services stations Hn [r Hr].
  { pose proof (depth_pos event). lia. }
  rewrite stationsReducer_unfold in Hr. rewrite depth_unfold in Hn.
  rewrite wellFormed_unfold.
  destruct (isBatchedEvent event).
  - destruct (events event) as [evs|]; [|discriminate].
    assert (Hd : forall e, In e evs -> depth e <= n).
    { intros e He. pose proof (depth_member evs e He). lia. }
    clear Hn. revert services stations Hr.
    induction evs as [|e evs IHevs]; intros services stations Hr; [reflexivity|].
    cbn [reduce fst snd] in Hr. cbn [forallb].
    destruct (stationsReducer services stations e) as [[sv1 st1]|] eqn:He;
      [|discriminate].
    rewrite (IH e services stations (Hd e (or_introl eq_refl))
               ltac:(rewrite He; eexists; reflexivity)).
    apply (IHevs ltac:(intros e' He'; apply Hd; right; exact He') sv1 st1 Hr).
  - destruct (isRegisterEvent event); [|reflexivity].
    destruct (payload event); [reflexivity|discriminate].
Qed.

(** X2. The router throws on every malformed event, whatever the registry
    and the interpreters are: an event that is, or holds in its batches, a
    batch without [events] or a registration without [payload].  On a
    well-formed event it throws only if the event addresses the name of an
    inherited property. *)
Theorem router_throws_on_malformed (event : Event) services stations :
  (wellFormed event = false -> stationsReducer services stations event = None)
  /\ (stationsReducer services stations event = None ->
      wellFormed event = false \/ avoidsInherited event = false).
Proof.
  split.
  - intros Hwf.
    destruct (stationsReducer services stations event) as [r|] eqn:Hr; [|reflexivity].
    assert (Hwf' : wellFormed event = true).
    { apply (stationsReducer_wellFormed_within (depth event) event services stations);
        [lia|]. rewrite Hr. eexists; reflexivity. }
    congruence.
  - intros Hnone. destruct (wellFormed event) eqn:Hwf; [|left; reflexivity].
    destruct (avoidsInherited event) eqn:Hav; [|right; reflexivity].
    destruct (stationsReducer_total event services stations Hwf Hav) as [r Hr].
    congruence.
Qed.

(** How an entry may differ from what it was before the router ran. *)
Lemma stationReducer_keeps_station services (station : Station) (event : Event) :
  frame (snd (stationReducer services station event)) = frame station
  /\ eventQueue station `prefix_of` eventQueue (snd (stationReducer services station event))
  /\ (service station = None ->
      state (snd (stationReducer services station event)) = state station)
  /\ (is_Some (service station) ->
      eventQueue (snd (stationReducer services station event)) = eventQueue station).
Proof.
  unfold stationReducer. destruct (service station) as [svc|] eqn:Hs.
  - destruct (send services svc event) as [sv' [next changed]].
    destruct changed; cbn [snd]; unfold frame; cbn; rewrite ?Hs;
      repeat split; try reflexivity; try discriminate.
  - cbn [snd]. unfold frame. cbn. rewrite Hs.
    repeat split; try reflexivity.
    + apply prefix_app_r. reflexivity.
    + intros [? [=]].
Qed.

Lemma stationsReducer_keeps_stations (event : Event)
    services stations services' stations' :
  registers event = false ->
  stationsReducer services stations event = Some (services', stations') ->
  forall k,
    match stations !! k, stations' !! k with
    | Some before, Some after =>
        frame after = frame before
        /\ eventQueue before `prefix_of` eventQueue after
        /\ (service before = None -> state after = state before)
        /\ (is_Some (service before) -> eventQueue after = eventQueue before)
    | None, None => True
    | _, _ => False
    end.
Proof.
  intros Hreg Hrun.
  refine (stationsReducer_preserves
            (fun _ current =>
               forall k,
                 match stations !! k, current !! k with
                 | Some before, Some after =>
                     frame after = frame before
                     /\ eventQueue before `prefix_of` eventQueue after
                     /\ (service before = None -> state after = state before)
                     /\ (is_Some (service before) ->
                         eventQueue after = eventQueue before)
                 | None, None => True
                 | _, _ => False
                 end)
            _ event services stations services' stations' _ Hrun _).
  - intros sv st e station _ _ Hl Hrel k. specialize (Hrel k).
    destruct (decide (propertyKey (to e) = k)) as [<-|Hne].
    + rewrite lookup_insert_eq. rewrite Hl in Hrel.
      destruct (stations !! propertyKey (to e)) as [before|]; [|exact Hrel].
      destruct Hrel as (Hf & Hq & Hst & Hlq).
      destruct (stationReducer_keeps_station sv station e) as (Hf' & Hq' & Hst' & Hlq').
      assert (Hsvc : service station = service before).
      { unfold frame in Hf. congruence. }
      split; [congruence|]. split; [etrans; eassumption|].
      split.
      * intros Hn. rewrite Hst' by congruence. apply Hst. exact Hn.
      * intros Hl'. rewrite Hlq' by (rewrite Hsvc; exact Hl'). apply Hlq. exact Hl'.
    + rewrite lookup_insert_ne by exact Hne. exact Hrel.
  - rewrite Hreg. discriminate.
  - intros k. destruct (stations !! k); [|exact I].
    repeat split; reflexivity.
Qed.

(** X3. An event that does not register leaves the set of registered
    identities exactly as it was, and changes neither the identity, nor the
    machine, nor the attached interpreter of any station: the router never
    adds, renames, attaches or detaches. *)
Theorem router_keeps_frames (event : Event)
    services stations services' stations' :
  registers event = false ->
  stationsReducer services stations event = Some (services', stations') ->
  dom stations' = dom stations
  /\ forall k, frame <$> stations' !! k = frame <$> stations !! k.
Proof.
  intros Hreg Hrun.
  pose proof (stationsReducer_keeps_stations event _ _ _ _ Hreg Hrun) as Hrel.
  assert (Hframes : forall k, frame <$> stations' !! k = frame <$> stations !! k).
  { intros k. specialize (Hrel k).
    destruct (stations !! k), (stations' !! k); cbn; try tauto.
    destruct Hrel as [-> _]. reflexivity. }
  split; [|exact Hframes].
  apply set_eq. intros k. rewrite !elem_of_dom.
  specialize (Hframes k).
  destruct (stations !! k), (stations' !! k); cbn in Hframes;
    try discriminate; split; intros [? ?]; eexists; reflexivity || eauto.
Qed.

(** X4. An event that does not register never drops or reorders what is
    queued: the queue of every station afterwards starts with its queue
    before.  The stored state of a station without a live interpreter is
    left as it was, and so is the queue of a station with one. *)
Theorem router_keeps_queues (event : Event) (k : string) (before : Station)
    services stations services' stations' :
  registers event = false ->
  stationsReducer services stations event = Some (services', stations') ->
  stations !! k = Some before ->
  exists after,
    stations' !! k = Some after
    /\ eventQueue before `prefix_of` eventQueue after
    /\ (service before = None -> state after = state before)
    /\ (is_Some (service before) -> eventQueue after = eventQueue before).
Proof.
  intros Hreg Hrun Hl.
  pose proof (stationsReducer_keeps_stations event _ _ _ _ Hreg Hrun k) as Hrel.
  rewrite Hl in Hrel.
  destruct (stations' !! k) as [after|]; [|contradiction].
  exists after. split; [reflexivity|]. tauto.
Qed.

Lemma delivery_frame (d : Event) (k : string)
    services stations services' stations' :
  (isBatchedEvent d = true /\ events d = None)
  \/ (isBatchedEvent d = false /\ isRegisterEvent d = true)
  \/ (isPlain d = true /\ forall ids, to d <> ToArray ids) ->
  stationsReducer services stations d = Some (services', stations') ->
  k ∉ written d ->
  stations' !! k = stations !! k.
Proof.
  intros [[Hb He]|[[Hb Hr]|[Hp Ht]]] Hrun Hk.
  - rewrite stationsReducer_unfold, Hb, He in Hrun. discriminate.
  - rewrite stationsReducer_unfold, Hb, Hr in Hrun.
    unfold written in Hk. rewrite Hb, Hr in Hk.
    destruct (payload d) as [station|]; [|discriminate].
    injection Hrun as <- <-. apply lookup_insert_ne.
    intros <-. apply Hk. left.
  - apply (stationsReducer_single_other d k services stations services' stations'
             Hp Ht); [|exact Hrun].
    apply isPlain_spec in Hp as [Hb Hr].
    unfold written in Hk. rewrite Hb, Hr in Hk.
    intros ->. apply Hk. left.
Qed.

Lemma applyInOrder_frame (ds : list Event) (k : string) :
  Forall (fun d =>
            (isBatchedEvent d = true /\ events d = None)
            \/ (isBatchedEvent d = false /\ isRegisterEvent d = true)
            \/ (isPlain d = true /\ forall ids, to d <> ToArray ids)) ds ->
  k ∉ flat_map written ds ->
  forall services stations services' stations',
    applyInOrder ds (Some (services, stations)) = Some (services', stations') ->
    stations' !! k = stations !! k.
Proof.
  induction ds as [|d ds IH]; intros Hkinds Hk services stations services' stations' Hrun.
  - injection Hrun as <- <-. reflexivity.
  - apply Forall_cons in Hkinds as [Hd Hkinds].
    cbn [flat_map] in Hk. rewrite elem_of_app in Hk.
    rewrite applyInOrder_cons in Hrun.
    destruct (stationsReducer services stations d) as [[sv1 st1]|] eqn:Hd1.
    + rewrite (IH Hkinds ltac:(tauto) sv1 st1 services' stations' Hrun).
      apply (delivery_frame d k services stations sv1 st1 Hd Hd1). tauto.
    + rewrite applyInOrder_none in Hrun. discriminate.
Qed.

(** X5. The router changes only the entries that the event addresses: an
    identity that is neither the single target of one of the event's
    deliveries nor the identity of a station it registers has the same entry
    (or none) before and after. *)
Theorem router_writes_only_targets (event : Event) (k : string)
    services stations services' stations' :
  stationsReducer services stations event = Some (services', stations') ->
  k ∉ targets event ->
  stations' !! k = stations !! k.
Proof.
  intros Hrun Hk.
  rewrite (stationsReducer_deliveries (depth event) event services stations
             ltac:(lia)) in Hrun.
  exact (applyInOrder_frame (deliveries event) k
           (deliveries_kinds (depth event) event ltac:(lia)) Hk
           services stations services' stations' Hrun).
Qed.

(** X6. Every event, registrations included, keeps each station under its
    own identity: if every entry of the registry is stored under the [id] of
    its station, so is every entry of the router's result. *)
Theorem router_keeps_keys_ids (event : Event)
    services stations services' stations' :
  stationsReducer services stations event = Some (services', stations') ->
  (forall k station, stations !! k = Some station -> id station = k) ->
  forall k station, stations' !! k = Some station -> id station = k.
Proof.
  intros Hrun.
  refine (stationsReducer_preserves
            (fun _ current => forall k station, current !! k = Some station -> id station = k)
            _ event services stations services' stations' _ Hrun).
  - intros sv st e station _ _ Hl Hids k station'.
    destruct (decide (propertyKey (to e) = k)) as [<-|Hne].
    + rewrite lookup_insert_eq. intros [= <-].
      destruct (stationReducer_keeps_station sv station e) as [Hf _].
      unfold frame in Hf. injection Hf as Hid _ _. rewrite Hid.
      exact (Hids _ station Hl).
    + rewrite lookup_insert_ne by exact Hne. apply Hids.
  - intros _ sv st station Hids k station'.
    destruct (decide (id station = k)) as [<-|Hne].
    + rewrite lookup_insert_eq. intros [= <-]. reflexivity.
    + rewrite lookup_insert_ne by exact Hne. apply Hids.
Qed.

(** X7. Empty input is dropped silently: an event addressed to the empty
    list of identities, and a batch of no events, both return the registry
    and the interpreters as they are. *)
Theorem router_drops_empty (event : Event) services stations :
  (isPlain event = true /\ to event = ToArray [])
  \/ (isBatchedEvent event = true /\ events event = Some []) ->
  stationsReducer services stations event = Some (services, stations).
Proof.
  intros [[Hp Ht]|[Hb He]].
  - apply isPlain_spec in Hp as [Hb Hr].
    rewrite (stationsReducer_array event [] services stations Hb Hr Ht). reflexivity.
  - rewrite (stationsReducer_batch event [] services stations Hb He). reflexivity.
Qed.

(** The per-station reducer reads and writes the interpreter of its station
    only. *)
Lemma stationReducer_local services services' (station : Station) (event : Event) :
  (forall svc, service station = Some svc -> services' svc = services svc) ->
  snd (stationReducer services' station event)
  = snd (stationReducer services station event)
  /\ forall r,
       fst (stationReducer services' station event) r
       = if bool_decide (service station = Some r)
         then fst (stationReducer services station event) r
         else services' r.
Proof.
  intros Hsame. unfold stationReducer.
  destruct (service station) as [svc|] eqn:Hs.
  - unfold send. rewrite (Hsame svc eq_refl).
    destruct (transition _ _ event) as [next changed]. cbn [fst snd].
    split; [destruct changed; reflexivity|].
    intros r. destruct changed; cbn [fst];
      (destruct (Nat.eqb_spec r svc) as [->|Hne];
       [rewrite bool_decide_eq_true_2 by reflexivity; reflexivity
       |rewrite bool_decide_eq_false_2 by congruence; reflexivity]).
  - cbn [fst snd]. split; [reflexivity|]. intros r. reflexivity.
Qed.

Lemma stationReducer_elsewhere services (station : Station) (event : Event)
    (r : AnyService) :
  service station <> Some r ->
  fst (stationReducer services station event) r = services r.
Proof.
  intros Hne.
  destruct (stationReducer_local services services station event ltac:(auto))
    as [_ Hfst].
  rewrite Hfst, bool_decide_eq_false_2 by exact Hne. reflexivity.
Qed.

(** X8. Deliveries to different stations commute: two events with single,
    different targets, whose stations do not share an interpreter and neither
    of which addresses an inherited name that has no entry, give the same
    registry and the same interpreters in either order. *)
Theorem deliveries_commute (e1 e2 : Event) services stations :
  isPlain e1 = true -> isPlain e2 = true ->
  (forall ids, to e1 <> ToArray ids) -> (forall ids, to e2 <> ToArray ids) ->
  propertyKey (to e1) <> propertyKey (to e2) ->
  (stations !! propertyKey (to e1) = None -> inherited (propertyKey (to e1)) = false) ->
  (stations !! propertyKey (to e2) = None -> inherited (propertyKey (to e2)) = false) ->
  (forall station1 station2 svc,
      stations !! propertyKey (to e1) = Some station1 ->
      stations !! propertyKey (to e2) = Some station2 ->
      service station1 = Some svc -> service station2 <> Some svc) ->
  exists services12 services21 stations',
    applyInOrder [e1; e2] (Some (services, stations)) = Some (services12, stations')
    /\ applyInOrder [e2; e1] (Some (services, stations)) = Some (services21, stations')
    /\ forall r, services12 r = services21 r.
Proof.
  intros Hp1 Hp2 Ht1 Ht2 Hne Hsafe1 Hsafe2 Hshare.
  pose proof (proj1 (isPlain_spec e1) Hp1) as [Hb1 Hr1].
  pose proof (proj1 (isPlain_spec e2) Hp2) as [Hb2 Hr2].
  rewrite !applyInOrder_cons.
  rewrite (stationsReducer_single e1 services stations Hb1 Hr1 Ht1).
  rewrite (stationsReducer_single e2 services stations Hb2 Hr2 Ht2).
  set (k1 := propertyKey (to e1)) in *. set (k2 := propertyKey (to e2)) in *.
  destruct (stations !! k1) as [s1|] eqn:H1; destruct (stations !! k2) as [s2|] eqn:H2;
    rewrite ?(Hsafe1 eq_refl), ?(Hsafe2 eq_refl);
    rewrite !applyInOrder_one;
    rewrite ?(stationsReducer_single e1 _ _ Hb1 Hr1 Ht1),
            ?(stationsReducer_single e2 _ _ Hb2 Hr2 Ht2);
    fold k1 k2;
    rewrite ?lookup_insert_ne by congruence; rewrite ?H1, ?H2;
    rewrite ?(Hsafe1 eq_refl), ?(Hsafe2 eq_refl).
  - specialize (Hshare s1 s2).
    destruct (stationReducer_local services (fst (stationReducer services s1 e1)) s2 e2)
      as [Hs2 Hf2].
    { intros svc Hsvc. apply stationReducer_elsewhere.
      intros Hsvc1. exact (Hshare svc eq_refl eq_refl Hsvc1 Hsvc). }
    destruct (stationReducer_local services (fst (stationReducer services s2 e2)) s1 e1)
      as [Hs1 Hf1].
    { intros svc Hsvc. apply stationReducer_elsewhere.
      intros Hsvc2. exact (Hshare svc eq_refl eq_refl Hsvc Hsvc2). }
    eexists _, _, _. split; [reflexivity|]. split.
    + rewrite Hs1, Hs2, (insert_insert_ne stations k2 k1) by congruence. reflexivity.
    + intros r. rewrite Hf2, Hf1.
      destruct (bool_decide (service s2 = Some r)) eqn:E2;
        destruct (bool_decide (service s1 = Some r)) eqn:E1.
      * apply bool_decide_eq_true_1 in E1, E2.
        exfalso. exact (Hshare r eq_refl eq_refl E1 E2).
      * apply bool_decide_eq_false_1 in E1. reflexivity.
      * apply bool_decide_eq_false_1 in E2. reflexivity.
      * apply bool_decide_eq_false_1 in E1, E2.
        rewrite !stationReducer_elsewhere by assumption. reflexivity.
  - eexists _, _, _. repeat split; reflexivity.
  - eexists _, _, _. repeat split; reflexivity.
  - eexists _, _, _. repeat split; reflexivity.
Qed.

(** * More about the send function *)

Lemma dispatchableEvent_truthy (id : string) (item : Sendable) :
  id <> "" -> truthy (to (dispatchableEvent id item)) = true.
Proof.
  intros Hid. destruct item as [name|event]; cbn.
  - apply negb_true_iff, String.eqb_neq. exact Hid.
  - destruct (truthy (to event)) eqn:Ht; [exact Ht|].
    cbn. apply negb_true_iff, String.eqb_neq. exact Hid.
Qed.

(** X9. Relaying keeps the target: an event that a component with a
    non-empty identity has normalised is left exactly as it is when another
    component sends it again. *)
Theorem relay_keeps_target (id1 id2 : string) (item : Sendable) :
  id1 <> "" ->
  dispatchableEvent id2 (EventObject (dispatchableEvent id1 item))
  = dispatchableEvent id1 item.
Proof.
  intros Hid. cbn [dispatchableEvent].
  rewrite (dispatchableEvent_truthy id1 item Hid). apply withTo_same.
Qed.

(** X10. Sending a bare type name: the two reserved names make the reducer
    throw (the event has no [events] and no [payload]); any other name is
    delivered to the component's own station and to no other.  When the
    component's identity is not registered the event is dropped, unless the
    identity is the name of an inherited property: then the reducer
    throws. *)
Theorem send_type_name (id name : string) (w : World) :
  (name = "BATCHED" \/ name = "REGISTER_MACHINE" ->
   sendToStore id (Single (TypeName name)) w = None)
  /\ (name <> "BATCHED" -> name <> "REGISTER_MACHINE" ->
      sendToStore id (Single (TypeName name)) w
      = match store w !! id with
        | Some station =>
            Some (mkWorld
                    (fst (stationReducer (interpreters w) station
                            (mkEvent name (ToString id) None None [])))
                    (<[id := snd (stationReducer (interpreters w) station
                                    (mkEvent name (ToString id) None None []))]>
                       (store w))
                    (nextService w))
        | None => if inherited id then None else Some w
        end).
Proof.
  unfold sendToStore, dispatch. cbn [dispatched dispatchableEvent]. split.
  - intros [-> | ->]; rewrite stationsReducer_unfold; reflexivity.
  - intros Hb Hr.
    rewrite stationsReducer_single.
    + cbn [to propertyKey]. destruct (store w !! id); [reflexivity|].
      destruct (inherited id); [reflexivity|]. destruct w; reflexivity.
    + apply String.eqb_neq. exact Hb.
    + apply String.eqb_neq. exact Hr.
    + discriminate.
Qed.

(** X11. Sending machine events that address no inherited name never
    throws: when every item sent is a type name or an event object that is
    neither a batch nor a registration, and no target (the sender's own
    identity included, where an item has none) is the name of an inherited
    property, the dispatch succeeds, whatever the registry holds. *)
Theorem send_accepts_machine_events (id : string) (items : list Sendable)
    (w : World) :
  Forall (fun item => isPlain (dispatchableEvent id item) = true
                      /\ avoidsInherited (dispatchableEvent id item) = true) items ->
  is_Some (sendToStore id (Batch items) w)
  /\ forall item, In item items -> is_Some (sendToStore id (Single item) w).
Proof.
  intros Hall.
  assert (Hdispatch : forall event,
             wellFormed event = true -> avoidsInherited event = true ->
             is_Some (dispatch event w)).
  { intros event Hwf Hav. unfold dispatch.
    destruct (stationsReducer_total event (interpreters w) (store w) Hwf Hav)
      as [[sv st] ->].
    eexists; reflexivity. }
  assert (Hplain : forall event, isPlain event = true -> wellFormed event = true).
  { intros event Hp. apply isPlain_spec in Hp as [Hb Hr].
    rewrite wellFormed_unfold, Hb, Hr. reflexivity. }
  split.
  - apply Hdispatch; cbn [dispatched].
    + rewrite wellFormed_unfold.
      change (isBatchedEvent (batched _)) with true.
      change (events (batched ?l)) with (Some l). cbv iota.
      induction Hall as [|item items [Hitem _] _ IH]; [reflexivity|].
      cbn [map forallb]. rewrite IH, (Hplain _ Hitem). reflexivity.
    + rewrite avoidsInherited_unfold.
      change (isBatchedEvent (batched _)) with true.
      change (events (batched ?l)) with (Some l). cbv iota.
      induction Hall as [|item items [_ Hitem] _ IH]; [reflexivity|].
      cbn [map forallb]. rewrite IH, Hitem. reflexivity.
  - intros item Hin.
    rewrite Forall_forall in Hall.
    destruct (Hall item ltac:(apply list_elem_of_In; exact Hin)) as [Hp Hav].
    apply Hdispatch; [apply Hplain; exact Hp|exact Hav].
Qed.

(** * More about the hook *)

(** X12. The first mount of a machine whose identity is not registered and
    is not the name of an inherited property registers a station with that
    identity and machine, an empty queue and the machine's initial state,
    attaches a new interpreter that starts in that state, and leaves every
    other entry and interpreter as it was.  When the identity is the name of
    an inherited property, the registration effect registers nothing and the
    mount throws. *)
Theorem first_mount_registers (machine : AnyMachine) (w : World) :
  store w !! machineId machine = None ->
  (inherited (machineId machine) = false ->
   useSupervisedMachine machine w
   = Some (mkWorld
             (fun r => if Nat.eqb r (nextService w)
                       then mkInterpreter machine (initialState machine)
                       else interpreters w r)
             (<[machineId machine :=
                  mkStation (machineId machine) machine (Some (nextService w)) []
                    (initialState machine)]> (store w))
             (S (nextService w))))
  /\ (inherited (machineId machine) = true ->
      registerEffect machine w = Some w
      /\ useSupervisedMachine machine w = None).
Proof.
  intros Hnew.
  rewrite useSupervisedMachine_effects, registerEffect_result.
  unfold getProperty. rewrite Hnew.
  split; intros Hinh; rewrite Hinh.
  - rewrite attach_result.
    cbn [store interpreters nextService]. rewrite lookup_insert_eq.
    unfold drainEffect, getProperty. cbn [store interpreters nextService].
    rewrite lookup_insert_eq. cbn. rewrite insert_insert_eq. reflexivity.
  - split; [reflexivity|].
    rewrite attach_result, Hnew, Hinh.
    unfold drainEffect, getProperty. cbn [store interpreters nextService].
    rewrite Hnew, Hinh. reflexivity.
Qed.

Lemma withService_twice (station : Station) (svc : option AnyService) :
  service station = None ->
  withService (withService station svc) None = station.
Proof. destruct station; cbn; intros ->; reflexivity. Qed.

(** X13. Attaching and detaching is a round trip for the registry: when a
    registered station has no interpreter, the attach effect succeeds, the
    cleanup that follows it succeeds, and the registry afterwards is the
    registry before. *)
Theorem attach_then_detach (machine : AnyMachine) (w : World) (station : Station) :
  store w !! machineId machine = Some station ->
  service station = None ->
  exists w1 w2,
    attach machine w = Some w1
    /\ detachEffect (machineId machine) w1 = Some w2
    /\ store w2 = store w.
Proof.
  intros Hl Hs. rewrite attach_result, Hl.
  eexists _, _. split; [reflexivity|].
  unfold detachEffect, getProperty. cbn [store interpreters nextService].
  rewrite lookup_insert_eq. split; [reflexivity|].
  cbn [store]. rewrite insert_insert_eq, (withService_twice station _ Hs).
  apply insert_id. exact Hl.
Qed.

Lemma applyInOrder_parked (id : string) (queue : list Event) :
  forall (station : Station) services stations,
    stations !! id = Some station ->
    service station = None ->
    Forall (addressedTo id) queue ->
    applyInOrder queue (Some (services, stations))
    = Some (services,
            <[id := withEventQueue station (eventQueue station ++ queue)]> stations).
Proof.
  induction queue as [|e queue IH]; intros station services stations Hl Hs Hall.
  - rewrite app_nil_r, withEventQueue_same, insert_id by exact Hl. reflexivity.
  - apply Forall_cons in Hall as [(Hp & Ht & Hk) Hall].
    apply isPlain_spec in Hp as [Hb Hr].
    rewrite applyInOrder_cons, stationsReducer_single by assumption.
    rewrite Hk, Hl. unfold stationReducer. rewrite Hs. cbn [fst snd].
    rewrite (IH (withEventQueue station (eventQueue station ++ [e])) services _
               (lookup_insert_eq _ _ _) Hs Hall).
    rewrite insert_insert_eq. unfold withEventQueue. cbn.
    rewrite <- app_assoc. reflexivity.
Qed.

Lemma drainEffect_parked (id : string) (w : World) (station : Station) :
  store w !! id = Some station ->
  service station = None ->
  Forall (addressedTo id) (eventQueue station) ->
  drainEffect id w = Some w.
Proof.
  intros Hl Hs Hall. unfold drainEffect. rewrite (getProperty_own _ _ _ Hl).
  destruct (0 <? length (eventQueue station))%nat; [|reflexivity].
  unfold dispatch. cbn [interpreters store nextService].
  rewrite (stationsReducer_batch (batched (eventQueue station)) _ _ _ eq_refl eq_refl).
  rewrite (applyInOrder_parked id (eventQueue station) (withEventQueue station [])
             _ _ (lookup_insert_eq _ _ _) Hs Hall).
  rewrite insert_insert_eq. cbn [withEventQueue eventQueue app].
  replace (withEventQueue (withEventQueue station []) (eventQueue station))
    with station by (destruct station; reflexivity).
  rewrite insert_id by exact Hl. destruct w; reflexivity.
Qed.

(** X14. Draining loses nothing when no interpreter is attached: in a
    reachable state, the drain effect on a station without a live
    interpreter puts every queued event back into the queue in its order, so
    the state after the effect is the state before. *)
Theorem drain_requeues_when_parked (id : string) (w : World) (station : Station) :
  reachable w ->
  store w !! id = Some station ->
  service station = None ->
  drainEffect id w = Some w.
Proof.
  intros Hw Hl Hs.
  exact (drainEffect_parked id w station Hl Hs (reachable_addressed w Hw id station Hl)).
Qed.

(** X15. Draining is done once: in a reachable state, running the drain
    effect again right after it has run changes nothing. *)
Theorem drain_twice_is_drain_once (id : string) (w w' : World) :
  reachable w ->
  drainEffect id w = Some w' ->
  drainEffect id w' = Some w'.
Proof.
  intros Hw Hrun.
  pose proof (reachable_addressed w Hw) as Hq.
  destruct (store w !! id) as [station|] eqn:Hl.
  2:{ unfold drainEffect, getProperty in Hrun. rewrite Hl in Hrun.
      destruct (inherited id) eqn:Hi; [discriminate|]. injection Hrun as <-.
      unfold drainEffect, getProperty. rewrite Hl, Hi. reflexivity. }
  destruct (service station) as [svc|] eqn:Hs.
  2:{ rewrite (drainEffect_parked id w station Hl Hs (Hq id station Hl)) in Hrun.
      injection Hrun as <-.
      exact (drainEffect_parked id w station Hl Hs (Hq id station Hl)). }
  unfold drainEffect in Hrun. rewrite (getProperty_own _ _ _ Hl) in Hrun.
  destruct (0 <? length (eventQueue station))%nat eqn:Hlen.
  2:{ injection Hrun as <-. unfold drainEffect.
      rewrite (getProperty_own _ _ _ Hl), Hlen. reflexivity. }
  assert (Hdrained : exists station', store w' !! id = Some station'
                                      /\ eventQueue station' = []).
  { unfold dispatch in Hrun. cbn [interpreters store nextService] in Hrun.
    destruct (stationsReducer _ _ _) as [[sv st]|] eqn:E; [|discriminate].
    injection Hrun as <-. cbn [store].
    assert (Hin : is_Some (st !! id)).
    { apply elem_of_dom. apply (stationsReducer_keeps_entries _ _ _ _ _ E).
      apply elem_of_dom. rewrite lookup_insert_eq. eexists; reflexivity. }
    destruct Hin as [station' Hl']. exists station'. split; [exact Hl'|].
    refine (proj1 (stationsReducer_pointwise
              (fun k s => k = id -> eventQueue s = [] /\ is_Some (service s))
              _ _ _ _ _ _ (addressedTo_registers id _ (Hq id station Hl)) E _
              id station' Hl' eq_refl)).
    - cbv beta. intros sv0 k s0 e0 _ H0 Hk. destruct (H0 Hk) as [Hempty Hlive].
      destruct (stationReducer_keeps_station sv0 s0 e0) as (Hf & _ & _ & Hsame).
      split; [rewrite (Hsame Hlive); exact Hempty|].
      unfold frame in Hf. injection Hf as _ _ Hsvc. rewrite Hsvc. exact Hlive.
    - intros k s. destruct (decide (id = k)) as [<-|Hne].
      + rewrite lookup_insert_eq. intros [= <-] _. cbn. rewrite Hs.
        split; [reflexivity|eexists; reflexivity].
      + rewrite lookup_insert_ne by exact Hne. intros _ Hk. congruence. }
  destruct Hdrained as (station' & Hl' & Hempty).
  unfold drainEffect. rewrite (getProperty_own _ _ _ Hl'), Hempty. reflexivity.
Qed.

Lemma dispatch_keeps_keyed (event : Event) (w w' : World) :
  registers event = false ->
  dispatch event w = Some w' ->
  keyedById (store w) -> keyedById (store w').
Proof.
  unfold dispatch. intros Hreg Hrun Hkeys.
  destruct (stationsReducer _ _ _) as [[sv st]|] eqn:E; [|discriminate].
  injection Hrun as <-. cbn [store]. intros k after Hafter.
  pose proof (stationsReducer_keeps_stations event _ _ _ _ Hreg E k) as Hrel.
  rewrite Hafter in Hrel.
  destruct (store w !! k) as [before|] eqn:Hbefore; [|contradiction].
  destruct Hrel as [Hf _]. unfold frame in Hf. injection Hf as -> -> _.
  exact (Hkeys k before Hbefore).
Qed.

Lemma keyedById_insert (k : string) (station : Station) (stations : Stations) :
  id station = k -> machineId (machine station) = k ->
  keyedById stations -> keyedById (<[k := station]> stations).
Proof.
  intros Hid Hm Hkeys k' station'.
  destruct (decide (k = k')) as [<-|Hne].
  - rewrite lookup_insert_eq. intros [= <-]. auto.
  - rewrite lookup_insert_ne by exact Hne. apply Hkeys.
Qed.

Lemma registerEffect_keeps_keyed (machine : AnyMachine) (w w' : World) :
  registerEffect machine w = Some w' ->
  keyedById (store w) -> keyedById (store w').
Proof.
  rewrite registerEffect_result. intros [= <-] Hkeys.
  destruct (getProperty (store w) (machineId machine)); [exact Hkeys..|].
  apply keyedById_insert; auto.
Qed.

Lemma attachEffect_keeps_keyed (id : string) (svc : AnyService) (w w' : World) :
  attachEffect id svc w = Some w' ->
  keyedById (store w) -> keyedById (store w').
Proof.
  intros [(station & Hl & ->)|(_ & _ & ->)]%attachEffect_result Hkeys;
    [|exact Hkeys].
  cbn [store]. destruct (Hkeys _ station Hl) as [Hid Hm].
  apply keyedById_insert; auto.
Qed.

Lemma run_keeps_keyed (e : Effect) (w w' : World) :
  effectAllowed e ->
  run e w = Some w' ->
  queuesAddressed (store w) ->
  keyedById (store w) -> keyedById (store w').
Proof.
  intros Hsend Hrun Hq Hkeys.
  destruct e as [machine|machine|id|id|id event]; cbn [run] in Hrun.
  - exact (registerEffect_keeps_keyed _ _ _ Hrun Hkeys).
  - unfold attach in Hrun. rewrite render_result in Hrun.
    exact (attachEffect_keeps_keyed _ _ _ _ Hrun Hkeys).
  - apply detachEffect_result in Hrun as [(station & Hl & ->)|(_ & _ & ->)];
      [|exact Hkeys].
    cbn [store]. destruct (Hkeys _ station Hl) as [Hid Hm].
    apply keyedById_insert; auto.
  - apply drainEffect_result in Hrun as [(station & Hl & _ & Hrun)|(-> & _)];
      [|exact Hkeys].
    apply (dispatch_keeps_keyed _ _ _
             (addressedTo_registers id _ (Hq id station Hl)) Hrun).
    cbn [store]. destruct (Hkeys _ station Hl) as [Hid Hm].
    apply keyedById_insert; auto.
  - exact (dispatch_keeps_keyed _ _ _ (Hsend id event eq_refl) Hrun Hkeys).
Qed.

Lemma commit_keeps_keyed (c : Commit) (w w' : World) :
  commitAllowed c ->
  commit c w = Some w' ->
  queuesAddressed (store w) ->
  keyedById (store w) -> keyedById (store w').
Proof.
  intros Hsend Hrun Hq Hkeys.
  destruct c as [machine|id|id event]; cbn [commit attempt] in Hrun.
  - rewrite useSupervisedMachine_effects in Hrun.
    destruct (registerEffect machine w) as [w1|] eqn:H1; [|discriminate].
    destruct (attach machine w1) as [w2|] eqn:H2; [|discriminate].
    assert (HR : effectAllowed (Register machine)) by (intros ? ? [=]).
    assert (HA : effectAllowed (Attach machine)) by (intros ? ? [=]).
    assert (HD : effectAllowed (Drain (machineId machine))) by (intros ? ? [=]).
    pose proof (run_keeps_addressed (Register machine) w w1 HR H1 Hq) as Hq1.
    pose proof (run_keeps_keyed (Register machine) w w1 HR H1 Hq Hkeys) as Hk1.
    pose proof (run_keeps_addressed (Attach machine) w1 w2 HA H2 Hq1) as Hq2.
    pose proof (run_keeps_keyed (Attach machine) w1 w2 HA H2 Hq1 Hk1) as Hk2.
    exact (run_keeps_keyed (Drain (machineId machine)) w2 w' HD Hrun Hq2 Hk2).
  - refine (run_keeps_keyed (Detach id) w w' _ Hrun Hq Hkeys). intros ? ? [=].
  - injection Hrun as <-.
    destruct (afterSend_cases id event w) as [Hret|(_ & -> & _)]; [|exact Hkeys].
    exact (dispatch_keeps_keyed _ _ _ (Hsend id event eq_refl) Hret Hkeys).
Qed.

Lemma reachableByCommits_keyed (w : World) :
  reachableByCommits w -> keyedById (store w).
Proof.
  induction 1 as [services|c w w' Hw IH Hsend Hrun].
  - intros k station Hk; cbn in Hk; rewrite lookup_empty in Hk; discriminate.
  - exact (commit_keeps_keyed c w w' Hsend Hrun
             (proj1 (reachableByCommits_keeps w Hw)) IH).
Qed.

(** X16. In every reachable state the registry is well kept: every entry is
    stored under the identity of its station, which is the identity of its
    machine, and every queued event is an event with a single target that is
    the station holding it (so that a drain sends it back to that station). *)
Theorem reachable_registry_is_well_kept (w : World) :
  reachable w -> keyedById (store w) /\ queuesAddressed (store w).
Proof.
  intros Hw. split; [|exact (reachable_addressed w Hw)].
  destruct Hw as [w0 Hw|machine w0 svc w1 Hw Hr|machine w0 svc w1 w2 Hw Hr Hreg
                 |machine w0 svc w1 w2 w3 Hw Hr Hreg Hatt];
    pose proof (reachableByCommits_keyed w0 Hw) as Hkeys;
    [exact Hkeys|..]; rewrite render_result in Hr; injection Hr as <- <-.
  - exact Hkeys.
  - exact (registerEffect_keeps_keyed _ _ _ Hreg Hkeys).
  - apply (attachEffect_keeps_keyed _ _ _ _ Hatt).
    exact (registerEffect_keeps_keyed _ _ _ Hreg Hkeys).
Qed.

(** X17. With the contract of the [changed] flag, and as long as nothing has
    thrown, the store mirrors the live interpreters between commits: the
    state stored for a station is the state its attached interpreter is in,
    and no interpreter is attached to two stations. *)
Theorem store_mirrors_interpreters (w : World) :
  unchangedMeansSame ->
  reachableWithoutThrow w ->
  (forall k station svc,
      store w !! k = Some station -> service station = Some svc ->
      icurrent (interpreters w svc) = state station)
  /\ (forall k1 k2 station1 station2 svc,
        store w !! k1 = Some station1 -> store w !! k2 = Some station2 ->
        service station1 = Some svc -> service station2 = Some svc ->
        k1 = k2).
Proof.
  intros contract Hw.
  destruct (reachableWithoutThrow_sync contract w Hw) as [_ [Hsync Hshare]].
  split; [|exact Hshare].
  intros k station svc Hl Hs. exact (proj2 (Hsync k station svc Hl Hs)).
Qed.

(** X18. Mounting a registered machine delivers what was parked, once: with
    the contract of the [changed] flag and in a reachable state, the mount
    succeeds and leaves the station with a new interpreter, an empty queue,
    and the state that a fresh interpreter of the machine reaches from the
    stored state on the queued events; every other entry is as it was. *)
Theorem mount_delivers_parked_events (m : AnyMachine) (w : World)
    (station : Station) :
  unchangedMeansSame ->
  reachable w ->
  store w !! machineId m = Some station ->
  exists w',
    useSupervisedMachine m w = Some w'
    /\ store w' !! machineId m
       = Some (mkStation (id station) (machine station) (Some (nextService w)) []
                 (replay m (state station) (eventQueue station)))
    /\ forall k, k <> machineId m -> store w' !! k = store w !! k.
Proof.
  intros contract Hw Hl.
  pose proof (reachable_addressed w Hw _ station Hl) as Hall.
  rewrite useSupervisedMachine_effects, registerEffect_result,
    (getProperty_own _ _ _ Hl), attach_result, Hl.
  set (w2 := mkWorld _ _ _).
  assert (Hl2 : store w2 !! machineId m
                = Some (withService station (Some (nextService w))))
    by apply lookup_insert_eq.
  destruct (eventQueue station) as [|e queue] eqn:Hq.
  - exists w2. unfold drainEffect. rewrite (getProperty_own _ _ _ Hl2).
    cbn [withService eventQueue].
    rewrite Hq. split; [reflexivity|]. split.
    + rewrite Hl2. unfold withService, replay. rewrite Hq. reflexivity.
    + intros k Hk. apply lookup_insert_ne. congruence.
  - rewrite (drainEffect_replays contract (machineId m) w2
               (withService station (Some (nextService w))) (nextService w)
               Hl2 eq_refl).
    + eexists. split; [reflexivity|]. cbn [store]. split.
      * rewrite lookup_insert_eq. cbn. rewrite Nat.eqb_refl, Hq. reflexivity.
      * intros k Hk. subst w2. cbn [store].
        rewrite !lookup_insert_ne by congruence. reflexivity.
    + cbn. rewrite Hq. discriminate.
    + cbn. rewrite Hq. exact Hall.
    + cbn. rewrite Nat.eqb_refl. reflexivity.
Qed.

(** * The components *)

(** X19. The change handler of an input sends one batch: the router delivers
    the input's own [CHANGE] first, addressed to the input's identity, and
    then the additional events in the order in which [onChange] returned
    them, each normalised like any sent event. *)
Theorem input_change_order (id value : string)
    (additionalEvents : string -> Additional) (w : World) :
  inputOnChange id (Some additionalEvents) value w
  = match
      applyInOrder
        (changeTo (ToString id) value
         :: map (fun event => dispatchableEvent id (EventObject event))
              (match additionalEvents value with
               | OneEvent event => [event]
               | ManyEvents items => items
               end))
        (Some (interpreters w, store w))
    with
    | Some (services, stations) => Some (mkWorld services stations (nextService w))
    | None => None
    end.
Proof.
  unfold inputOnChange, sendToStore, dispatch, inputChange.
  cbn [dispatched].
  rewrite (stationsReducer_batch (batched _) _ _ _ eq_refl eq_refl).
  rewrite map_map.
  destruct (additionalEvents value) as [event|items]; reflexivity.
Qed.

(** X20. The wiring of the form: a change of the Country input is delivered
    to Country and then clears State, Province and City, in that order; a
    change of the State or Province input is delivered to it and then clears
    City.  Nothing else is dispatched. *)
Theorem form_changes_clear_dependents (value : string) services stations :
  stationsReducer services stations
    (dispatched "Country" (inputChange (Some countryOnChange) value))
  = applyInOrder
      [changeTo (ToString "Country") value;
       changeTo (ToString "State") "";
       changeTo (ToString "Province") "";
       changeTo (ToString "City") ""]
      (Some (services, stations))
  /\ forall id,
       stationsReducer services stations
         (dispatched id (inputChange (Some regionOnChange) value))
       = applyInOrder
           [changeTo (ToString id) value; changeTo (ToString "City") ""]
           (Some (services, stations)).
Proof.
  split.
  - rewrite (stationsReducer_deliveries (depth _) _ _ _ (Nat.le_refl _)).
    reflexivity.
  - intros id.
    rewrite (stationsReducer_deliveries (depth _) _ _ _ (Nat.le_refl _)).
    reflexivity.
Qed.

(** X21. An input without [onChange], and the focus and blur handlers of
    every input, touch the input's own station only: when the input's
    identity has an entry, or is not the name of an inherited property, each
    of the three dispatches succeeds and leaves every entry under another
    identity as it was. *)
Theorem input_handlers_are_local (id value : string) (w : World) :
  is_Some (store w !! id) \/ inherited id = false ->
  (exists w', inputOnChange id None value w = Some w'
              /\ forall k, k <> id -> store w' !! k = store w !! k)
  /\ (exists w', inputOnFocus id w = Some w'
                 /\ forall k, k <> id -> store w' !! k = store w !! k)
  /\ (exists w', inputOnBlur id w = Some w'
                 /\ forall k, k <> id -> store w' !! k = store w !! k).
Proof.
  intros Hsafe.
  assert (Hgen : forall event,
             isPlain event = true ->
             exists w', dispatch (withTo event (ToString id)) w = Some w'
                        /\ forall k, k <> id -> store w' !! k = store w !! k).
  { intros event Hp. apply isPlain_spec in Hp as [Hb Hr].
    unfold dispatch. rewrite stationsReducer_single; [|assumption..|discriminate].
    cbn [withTo to propertyKey].
    destruct (store w !! id) as [station|] eqn:Hl.
    - eexists. split; [reflexivity|]. intros k Hk. cbn [store].
      apply lookup_insert_ne. congruence.
    - destruct Hsafe as [[station Hs]|Hinh]; [discriminate|].
      rewrite Hinh. eexists. split; [reflexivity|]. intros k Hk. reflexivity. }
  split; [exact (Hgen (changeEvent value) eq_refl)|].
  split.
  - exact (Hgen (mkEvent "FOCUS" ToUndefined None None []) eq_refl).
  - exact (Hgen (mkEvent "BLUR" ToUndefined None None []) eq_refl).
Qed.

(** X22. What the Country display shows changes only when the router
    delivers to a live Country station: the selector's value is the same
    before and after every event that does not address ["Country"], and
    before and after every event without a registration while the Country
    station has no live interpreter.  Without a Country station it is the
    empty string. *)
Theorem countrySelector_is_stable (contextValue : XState -> option string)
    (event : Event) services stations services' stations' :
  stationsReducer services stations event = Some (services', stations') ->
  "Country" ∉ targets event
  \/ (registers event = false
      /\ forall station, stations !! "Country" = Some station ->
                         service station = None) ->
  countrySelector contextValue stations' = countrySelector contextValue stations
  /\ (stations !! "Country" = None -> countrySelector contextValue stations = "").
Proof.
  intros Hrun Hcase. split.
  - unfold countrySelector. destruct Hcase as [Hk|[Hreg Hparked]].
    + rewrite (stationsReducer_deliveries (depth event) event services stations
                 ltac:(lia)) in Hrun.
      rewrite (applyInOrder_frame (deliveries event) "Country"
                 (deliveries_kinds (depth event) event ltac:(lia)) Hk
                 services stations services' stations' Hrun).
      reflexivity.
    + pose proof (stationsReducer_keeps_stations event _ _ _ _ Hreg Hrun "Country")
        as Hrel.
      destruct (stations !! "Country") as [before|] eqn:Hb;
        destruct (stations' !! "Country") as [after|]; try contradiction;
        [|reflexivity].
      destruct Hrel as (_ & _ & Hstate & _).
      rewrite (Hstate (Hparked before eq_refl)). reflexivity.
  - unfold countrySelector. intros ->. reflexivity.
Qed.

End Theory.

(** * The validity of an input's value *)

Module ValidationFacts.

Import Validation.

Lemma trimStart_empty (str : list N) :
  nonEmpty (trimStart str) = existsb (fun c => negb (isWhiteSpace c)) str.
Proof.
  induction str as [|c str IH]; [reflexivity|].
  cbn [trimStart existsb]. destruct (isWhiteSpace c); [exact IH|reflexivity].
Qed.

Lemma nonEmpty_rev (str : list N) : nonEmpty (rev str) = nonEmpty str.
Proof.
  destruct str as [|c str]; [reflexivity|].
  cbn [rev]. destruct (rev str); reflexivity.
Qed.

Lemma existsb_rev (f : N -> bool) (str : list N) :
  existsb f (rev str) = existsb f str.
Proof.
  induction str as [|c str IH]; [reflexivity|].
  cbn [rev existsb]. rewrite existsb_app, IH. cbn. rewrite orb_false_r.
  apply orb_comm.
Qed.

Lemma trimStart_keeps (str : list N) :
  existsb (fun c => negb (isWhiteSpace c)) (trimStart str)
  = existsb (fun c => negb (isWhiteSpace c)) str.
Proof.
  induction str as [|c str IH]; [reflexivity|].
  cbn [trimStart]. destruct (isWhiteSpace c) eqn:E; [|reflexivity].
  cbn [existsb]. rewrite E. exact IH.
Qed.

Lemma trim_empty (str : list N) :
  nonEmpty (trim str) = existsb (fun c => negb (isWhiteSpace c)) str.
Proof.
  unfold trim, trimEnd.
  rewrite nonEmpty_rev, trimStart_empty, existsb_rev. apply trimStart_keeps.
Qed.

(** X23. A value is valid exactly when it is a string with a code unit that
    is not white space: [undefined], the empty string and strings of white
    space only are the invalid values. *)
Theorem isValid_iff_visible (str : option (list N)) :
  isValid str
  = match str with
    | Some str => existsb (fun c => negb (isWhiteSpace c)) str
    | None => false
    end.
Proof.
  destruct str as [str|]; [|reflexivity].
  unfold isValid. rewrite trim_empty.
  destruct str as [|c str]; reflexivity.
Qed.

Lemma trim_keeps (str : list N) :
  existsb (fun c => negb (isWhiteSpace c)) (trim str)
  = existsb (fun c => negb (isWhiteSpace c)) str.
Proof.
  unfold trim, trimEnd.
  rewrite existsb_rev, trimStart_keeps, existsb_rev. apply trimStart_keeps.
Qed.

Lemma visible_nonEmpty (str : list N) :
  nonEmpty str && existsb (fun c => negb (isWhiteSpace c)) str
  = existsb (fun c => negb (isWhiteSpace c)) str.
Proof. destruct str; reflexivity. Qed.

(** X24. Validity is kept by what surrounds a value: a concatenation is
    valid exactly when one of its parts is, so white space before or after
    a value does not change whether it is valid, and neither does trimming
    it. *)
Theorem isValid_of_parts (str1 str2 : list N) :
  isValid (Some (str1 ++ str2)%list) = isValid (Some str1) || isValid (Some str2)
  /\ isValid (Some (trim str1)) = isValid (Some str1).
Proof.
  unfold isValid. rewrite !trim_empty, !visible_nonEmpty, trim_keeps.
  split; [apply existsb_app|].
  rewrite andb_diag. reflexivity.
Qed.

End ValidationFacts.

(** * The laws at the toggle machine *)

Import Toggle.

Lemma batch_is_left_fold_witness :
  stationsReducer idle oneParked
    (batched [toggleTo (ToString "A"); focusTo (ToString "A")])
  = applyInOrder [toggleTo (ToString "A"); focusTo (ToString "A")]
      (Some (idle, oneParked)).
Proof. apply batch_is_left_fold; reflexivity. Defined.

Lemma array_target_expands_witness :
  stationsReducer idle twoLive (toggleTo (ToArray ["A"; "B"]))
  = applyInOrder
      (map (fun id => withTo (toggleTo (ToArray ["A"; "B"])) (ToString id)) ["A"; "B"])
      (Some (idle, twoLive))
  /\ (forall services' stations',
        stationsReducer idle twoLive (toggleTo (ToArray ["A"; "B"]))
        = Some (services', stations') ->
        forall k, k ∉ ["A"; "B"] -> stations' !! k = twoLive !! k)
  /\ is_Some (stationsReducer idle twoLive (toggleTo (ToArray ["A"; "B"]))).
Proof.
  destruct (array_target_expands (toggleTo (ToArray ["A"; "B"])) ["A"; "B"]
              idle twoLive eq_refl eq_refl) as (Hfold & Hothers & Hreturns).
  split; [exact Hfold|]. split; [exact Hothers|].
  apply Hreturns. intros id Hid. right.
  apply elem_of_cons in Hid as [->|Hid]; [reflexivity|].
  apply elem_of_cons in Hid as [->|Hid]; [reflexivity|].
  apply elem_of_nil in Hid. contradiction.
Defined.

Lemma queue_is_fifo_witness :
  exists station' : Station,
    applyInOrder [toggleTo (ToString "A"); focusTo (ToString "A")]
      (Some (idle, oneParked))
    = Some (idle, <["A" := station']> oneParked)
    /\ eventQueue station' = [toggleTo (ToString "A"); focusTo (ToString "A")]
    /\ id station' = "A"
    /\ machine station' = "A"
    /\ service station' = None
    /\ state station' = NO.
Proof.
  apply (queue_is_fifo [toggleTo (ToString "A"); focusTo (ToString "A")]
           "A" (parked "A" []) idle oneParked); [reflexivity|reflexivity|].
  repeat constructor.
Defined.

(** C6 at the failing input: the registry is empty and the event is
    addressed to ["toString"].  An event addressed to ["B"], which is no
    inherited name, is dropped. *)
Lemma unknown_target_throws_when_inherited_witness :
  stationsReducer idle oneParked (toggleTo (ToString "B")) = Some (idle, oneParked)
  /\ stationsReducer idle ∅ (toggleTo (ToString "toString")) = None
  /\ dispatch (toggleTo (ToString "toString")) (initialWorld idle) = None.
Proof.
  split.
  - apply (unknown_target_throws_when_inherited (toggleTo (ToString "B")) "B"
             idle oneParked); reflexivity.
  - apply (unknown_target_throws_when_inherited (toggleTo (ToString "toString"))
             "toString" idle ∅); reflexivity.
Defined.

Lemma stationReducer_live_witness :
  fst (stationReducer idle (live "A" 0 []) (toggleTo (ToString "A")))
  = fst (send idle 0 (toggleTo (ToString "A")))
  /\ icurrent (fst (stationReducer idle (live "A" 0 []) (toggleTo (ToString "A"))) 0)
     = YES
  /\ (true = true ->
      snd (stationReducer idle (live "A" 0 []) (toggleTo (ToString "A")))
      = withState (live "A" 0 []) YES
      /\ state (snd (stationReducer idle (live "A" 0 []) (toggleTo (ToString "A"))))
         = YES)
  /\ (true = false ->
      snd (stationReducer idle (live "A" 0 []) (toggleTo (ToString "A")))
      = live "A" 0 []).
Proof.
  exact (stationReducer_live (live "A" 0 []) (toggleTo (ToString "A")) 0 idle eq_refl).
Defined.

Lemma router_never_removes_witness :
  exists stations',
    stationsReducer idle oneParked (registerMachine (parked "B" []))
    = Some (idle, stations')
    /\ stations' !! "B" = Some (parked "B" [])
    /\ forall k, k <> "B" -> stations' !! k = oneParked !! k.
Proof.
  exact (proj2 (proj2 (router_never_removes (registerMachine (parked "B" []))
                         idle oneParked))
           (parked "B" []) eq_refl eq_refl eq_refl).
Defined.

Lemma missing_target_uses_key_undefined_witness :
  stationsReducer idle oneParked (toggleTo ToUndefined) = Some (idle, oneParked).
Proof.
  apply (missing_target_uses_key_undefined (toggleTo ToUndefined) idle oneParked);
    reflexivity.
Defined.

(** C10, as stated, fails: with a station registered under the identity
    ["undefined"], an event without [to] is queued at that station. *)
Lemma missing_target_is_not_dropped :
  isPlain (toggleTo ToUndefined) = true
  /\ to (toggleTo ToUndefined) = ToUndefined
  /\ stationsReducer idle undefinedParked (toggleTo ToUndefined)
     = Some (idle, {[ "undefined" := parked "undefined" [toggleTo ToUndefined] ]})
  /\ stationsReducer idle undefinedParked (toggleTo ToUndefined)
     <> Some (idle, undefinedParked).
Proof.
  assert (Hrun : stationsReducer idle undefinedParked (toggleTo ToUndefined)
                 = Some (idle, {[ "undefined" := parked "undefined" [toggleTo ToUndefined] ]})).
  { rewrite stationsReducer_single by (try reflexivity; discriminate).
    cbn [to toggleTo propertyKey]. unfold undefinedParked.
    rewrite lookup_singleton_eq. cbn. rewrite insert_singleton_eq. reflexivity. }
  split; [reflexivity|]. split; [reflexivity|]. split; [exact Hrun|].
  rewrite Hrun. intros Heq.
  apply (f_equal (fun r : option (Services * Stations) =>
                    match r with
                    | Some (_, m) => eventQueue <$> m !! "undefined"
                    | None => None
                    end)) in Heq.
  unfold undefinedParked in Heq. rewrite !lookup_singleton_eq in Heq.
  discriminate.
Qed.

Lemma send_normalises_witness :
  dispatched "A" (Single (EventObject (toggleTo ToUndefined)))
  = withTo (toggleTo ToUndefined) (ToString "A")
  /\ dispatched "A" (Single (EventObject (toggleTo (ToString "B"))))
     = toggleTo (ToString "B").
Proof.
  split.
  - apply (proj1 (proj2 (send_normalises "A"))). left. reflexivity.
  - apply (proj1 (proj2 (proj2 (send_normalises "A")))); discriminate.
Defined.

(** C9, as stated, fails: an event object whose explicit target is the empty
    string does not keep it, the component's identity replaces it. *)
Lemma empty_target_is_not_preserved :
  to (toggleTo (ToString "")) = ToString ""
  /\ to (dispatched "A" (Single (EventObject (toggleTo (ToString "")))))
     = ToString "A"
  /\ to (dispatched "A" (Single (EventObject (toggleTo (ToString "")))))
     <> to (toggleTo (ToString "")).
Proof. repeat split. discriminate. Qed.

(** ** The hook at the toggle machine *)

Lemma toggle_contract : unchangedMeansSame.
Proof.
  intros machine current event. cbn.
  destruct (String.eqb _ _); cbn; intros Hc; [discriminate Hc|reflexivity].
Qed.

Lemma parkedWithTwo_settled : reachableByCommits parkedWithTwo.
Proof.
  apply (commitAll_reachable parking (initialWorld idle));
    [constructor| |vm_compute; reflexivity].
  unfold parking.
  repeat (apply Forall_cons; split;
          [intros id event Heq; try discriminate Heq;
           injection Heq as <- <-; reflexivity|]).
  constructor.
Qed.

Lemma parkedWithTwo_reachable : reachable parkedWithTwo.
Proof. exact (reachable_settled parkedWithTwo parkedWithTwo_settled). Qed.

Lemma attachedAgain_reachable : reachable attachedAgain.
Proof.
  eapply (reachable_attached (X := createToggleMachine) "A" parkedWithTwo);
    [exact parkedWithTwo_settled|vm_compute; reflexivity..].
Qed.

Lemma remount_allowed : Forall commitAllowed remount.
Proof.
  unfold remount.
  repeat (apply Forall_cons; split;
          [intros id event Heq; try discriminate Heq;
           injection Heq as <- <-; reflexivity|]).
  constructor.
Qed.

Lemma mountedAgain_reachable : reachableByCommits mountedAgain.
Proof.
  apply (commitAll_reachable remount (initialWorld idle));
    [constructor|exact remount_allowed|].
  vm_compute. reflexivity.
Qed.

Lemma mountedAgain_without_throw : reachableWithoutThrow mountedAgain.
Proof.
  apply (attemptAll_reachable remount (initialWorld idle));
    [constructor|exact remount_allowed|].
  vm_compute. reflexivity.
Qed.

Lemma drain_is_replay_witness :
  exists w' station',
    drainEffect "A" attachedAgain = Some w'
    /\ store w' !! "A" = Some station'
    /\ eventQueue station' = []
    /\ service station' = Some 1
    /\ state station'
       = replay (imachine (interpreters attachedAgain 1))
           (state (live "A" 1 [toggleTo (ToString "A"); focusTo (ToString "A")]))
           (eventQueue (live "A" 1 [toggleTo (ToString "A"); focusTo (ToString "A")])).
Proof.
  apply (drain_is_replay attachedAgain "A"
           (live "A" 1 [toggleTo (ToString "A"); focusTo (ToString "A")]) 1
           toggle_contract attachedAgain_reachable);
    [vm_compute; reflexivity|reflexivity|discriminate].
Defined.

Lemma live_stations_are_drained_witness :
  liveMeansDrained (store mountedAgain)
  /\ (forall id station,
        store mountedAgain !! id = Some station ->
        eventQueue station <> [] -> service station = None).
Proof. exact (live_stations_are_drained mountedAgain mountedAgain_reachable). Defined.

(** C4, as stated, fails: after the attach effect of a second mount, and
    before its drain effect, the station is live and its queue still holds
    the events that were parked while it was unmounted. *)
Lemma attached_before_drained :
  reachable attachedAgain
  /\ store attachedAgain !! "A"
     = Some (live "A" 1 [toggleTo (ToString "A"); focusTo (ToString "A")])
  /\ ~ liveMeansDrained (store attachedAgain).
Proof.
  split; [exact attachedAgain_reachable|].
  assert (Hl : store attachedAgain !! "A"
               = Some (live "A" 1 [toggleTo (ToString "A"); focusTo (ToString "A")]))
    by (vm_compute; reflexivity).
  split; [exact Hl|].
  intros Hd. specialize (Hd "A" _ Hl ltac:(eexists; reflexivity)). discriminate.
Qed.

(** ** The scenarios of the specification *)

(** Register ["A"] without an interpreter and dispatch an event to it: the
    event is in the queue of ["A"]. *)
Example parked_event_is_queued :
  (fun w => stored "A" (store w))
    <$> runAll [Register "A"; Sent "B" (sendToA (toggleTo (ToString "A")))]
          (initialWorld idle)
  = Some (Some ([toggleTo (ToString "A")], NO)).
Proof. vm_compute. reflexivity. Qed.

(** Then attach an interpreter and drain: the queue is empty and the
    interpreter has received the event exactly once. *)
Example parked_event_is_delivered_once :
  (fun w => (stored "A" (store w), icurrent (interpreters w 0)))
    <$> runAll [Register "A"; Sent "B" (sendToA (toggleTo (ToString "A")));
                Attach "A"; Drain "A"]
          (initialWorld idle)
  = Some (Some ([], YES), YES).
Proof. vm_compute. reflexivity. Qed.

(** An event addressed to a list of live stations reaches each of them, and
    no other station. *)
Example array_target_reaches_each :
  (fun r => (stored "A" (snd r), stored "B" (snd r), stored "C" (snd r)))
    <$> stationsReducer idle withBystander (toggleTo (ToArray ["A"; "B"]))
  = Some (Some ([], YES), Some ([], YES), Some ([], NO)).
Proof. vm_compute. reflexivity. Qed.

(** * More at the toggle machine *)

Lemma toggle_replay (m : AnyMachine) (evs : list Event) :
  forall seed : Value,
    replay m seed evs = if Nat.even (toggles evs) then seed else flip seed.
Proof.
  intros seed. rewrite replay_fold. revert seed.
  induction evs as [|e evs IH]; intros seed; [reflexivity|].
  cbn [fold_left]. rewrite IH. unfold toggles.
  cbn [List.filter transition createToggleMachine].
  destruct (String.eqb _ _); cbn [fst length].
  - rewrite Nat.even_succ, <- Nat.negb_even.
    destruct (Nat.even _), seed; reflexivity.
  - reflexivity.
Qed.

(** X25. The toggle machine counts [TOGGLE] events modulo two and ignores
    every other event: fed any events from a state, its interpreter ends in
    that state when the number of [TOGGLE] events is even and in the other
    state when it is odd.  So the form, which starts with the Province
    input, renders the State input exactly after an odd number of
    [TOGGLE]s. *)
Theorem toggle_counts_modulo_two (m : AnyMachine) (seed : Value)
    (evs : list Event) :
  replay m seed evs = (if Nat.even (toggles evs) then seed else flip seed)
  /\ regionInput (replay provinceOrStateM (initialState provinceOrStateM) evs)
     = if Nat.even (toggles evs) then "Province" else "State".
Proof.
  split; [apply toggle_replay|].
  rewrite toggle_replay. destruct (Nat.even _); reflexivity.
Qed.

Lemma router_keeps_frames_witness :
  exists services' stations',
    stationsReducer idle twoLive (toggleTo (ToString "A")) = Some (services', stations')
    /\ dom stations' = dom twoLive
    /\ forall k, frame <$> stations' !! k = frame <$> twoLive !! k.
Proof.
  destruct (stationsReducer idle twoLive (toggleTo (ToString "A")))
    as [[services' stations']|] eqn:E; [|vm_compute in E; discriminate E].
  exists services', stations'. split; [reflexivity|].
  exact (router_keeps_frames (toggleTo (ToString "A")) idle twoLive
           services' stations' eq_refl E).
Defined.

Lemma router_keeps_queues_witness :
  exists services' stations' after,
    stationsReducer idle oneParked (toggleTo (ToString "A")) = Some (services', stations')
    /\ stations' !! "A" = Some after
    /\ eventQueue (parked "A" []) `prefix_of` eventQueue after
    /\ (service (parked "A" []) = None -> state after = state (parked "A" []))
    /\ (is_Some (service (parked "A" [])) ->
        eventQueue after = eventQueue (parked "A" [])).
Proof.
  destruct (stationsReducer idle oneParked (toggleTo (ToString "A")))
    as [[services' stations']|] eqn:E; [|vm_compute in E; discriminate E].
  destruct (router_keeps_queues (toggleTo (ToString "A")) "A" (parked "A" [])
              idle oneParked services' stations' eq_refl E eq_refl)
    as (after & Hafter).
  exists services', stations', after. split; [reflexivity|exact Hafter].
Defined.

Lemma router_writes_only_targets_witness :
  exists services' stations',
    stationsReducer idle withBystander (toggleTo (ToArray ["A"; "B"]))
    = Some (services', stations')
    /\ stations' !! "C" = withBystander !! "C".
Proof.
  destruct (stationsReducer idle withBystander (toggleTo (ToArray ["A"; "B"])))
    as [[services' stations']|] eqn:E; [|vm_compute in E; discriminate E].
  exists services', stations'. split; [reflexivity|].
  apply (router_writes_only_targets (toggleTo (ToArray ["A"; "B"])) "C"
           idle withBystander services' stations' E).
  cbn. rewrite !elem_of_cons, elem_of_nil. intuition discriminate.
Defined.

Lemma router_keeps_keys_ids_witness :
  exists services' stations',
    stationsReducer idle oneParked (registerMachine (parked "B" []))
    = Some (services', stations')
    /\ forall k station, stations' !! k = Some station -> id station = k.
Proof.
  destruct (stationsReducer idle oneParked (registerMachine (parked "B" [])))
    as [[services' stations']|] eqn:E; [|vm_compute in E; discriminate E].
  exists services', stations'. split; [reflexivity|].
  apply (router_keeps_keys_ids (registerMachine (parked "B" [])) idle oneParked
           services' stations' E).
  intros k station Hk. unfold oneParked in Hk.
  apply lookup_singleton_Some in Hk as [<- <-]. reflexivity.
Defined.

Lemma router_drops_empty_witness :
  stationsReducer idle twoLive (toggleTo (ToArray [])) = Some (idle, twoLive).
Proof.
  apply router_drops_empty. left. split; reflexivity.
Defined.

Lemma deliveries_commute_witness :
  exists services12 services21 stations',
    applyInOrder [toggleTo (ToString "A"); toggleTo (ToString "B")]
      (Some (idle, twoLive)) = Some (services12, stations')
    /\ applyInOrder [toggleTo (ToString "B"); toggleTo (ToString "A")]
         (Some (idle, twoLive)) = Some (services21, stations')
    /\ forall r, services12 r = services21 r.
Proof.
  apply deliveries_commute; try reflexivity; try discriminate;
    try (intros _; reflexivity).
  intros station1 station2 svc H1 H2 Hs1.
  vm_compute in H1, H2. injection H1 as <-. injection H2 as <-.
  injection Hs1 as <-. discriminate.
Defined.

Lemma relay_keeps_target_witness :
  dispatchableEvent "B" (EventObject (dispatchableEvent "A" (TypeName "FOCUS")))
  = dispatchableEvent "A" (TypeName "FOCUS").
Proof. apply relay_keeps_target. discriminate. Defined.

Lemma send_accepts_machine_events_witness :
  is_Some (sendToStore "A"
             (Batch [TypeName "FOCUS"; EventObject (toggleTo (ToString "B"))])
             (initialWorld idle))
  /\ forall item,
       In item [TypeName "FOCUS"; EventObject (toggleTo (ToString "B"))] ->
       is_Some (sendToStore "A" (Single item) (initialWorld idle)).
Proof.
  apply send_accepts_machine_events.
  apply Forall_cons; split; [split; reflexivity|].
  apply Forall_cons; split; [split; reflexivity|]. constructor.
Defined.

Lemma first_mount_registers_witness :
  useSupervisedMachine (X := createToggleMachine) "A" (initialWorld idle)
  = Some (mkWorld
            (fun r => if Nat.eqb r 0 then mkInterpreter "A" NO else idle r)
            (<["A" := mkStation "A" "A" (Some 0) [] NO]> ∅)
            1)
  /\ registerEffect (X := createToggleMachine) "constructor" (initialWorld idle)
     = Some (initialWorld idle)
  /\ useSupervisedMachine (X := createToggleMachine) "constructor" (initialWorld idle)
     = None.
Proof.
  split.
  - apply (first_mount_registers (X := createToggleMachine) "A" (initialWorld idle));
      reflexivity.
  - apply (first_mount_registers (X := createToggleMachine) "constructor"
             (initialWorld idle)); reflexivity.
Defined.

Lemma attach_then_detach_witness :
  exists w1 w2,
    attach (X := createToggleMachine) "A" parkedWithTwo = Some w1
    /\ detachEffect "A" w1 = Some w2
    /\ store w2 = store parkedWithTwo.
Proof.
  apply (attach_then_detach (X := createToggleMachine) "A" parkedWithTwo
           (parked "A" [toggleTo (ToString "A"); focusTo (ToString "A")]));
    [vm_compute; reflexivity|reflexivity].
Defined.

Lemma drain_requeues_when_parked_witness :
  drainEffect "A" parkedWithTwo = Some parkedWithTwo.
Proof.
  apply (drain_requeues_when_parked "A" parkedWithTwo
           (parked "A" [toggleTo (ToString "A"); focusTo (ToString "A")])
           parkedWithTwo_reachable);
    [vm_compute; reflexivity|reflexivity].
Defined.

Lemma drain_twice_is_drain_once_witness :
  exists w', drainEffect "A" attachedAgain = Some w'
             /\ drainEffect "A" w' = Some w'.
Proof.
  destruct (drainEffect "A" attachedAgain) as [w'|] eqn:E;
    [|vm_compute in E; discriminate E].
  exists w'. split; [reflexivity|].
  exact (drain_twice_is_drain_once "A" attachedAgain w' attachedAgain_reachable E).
Defined.

Lemma reachable_registry_is_well_kept_witness :
  keyedById (store attachedAgain) /\ queuesAddressed (store attachedAgain).
Proof.
  exact (reachable_registry_is_well_kept attachedAgain attachedAgain_reachable).
Defined.

Lemma store_mirrors_interpreters_witness :
  (forall k station svc,
      store mountedAgain !! k = Some station -> service station = Some svc ->
      icurrent (interpreters mountedAgain svc) = state station)
  /\ (forall k1 k2 station1 station2 svc,
        store mountedAgain !! k1 = Some station1 ->
        store mountedAgain !! k2 = Some station2 ->
        service station1 = Some svc -> service station2 = Some svc ->
        k1 = k2).
Proof.
  exact (store_mirrors_interpreters mountedAgain toggle_contract
           mountedAgain_without_throw).
Defined.

Lemma mount_delivers_parked_events_witness :
  exists w',
    useSupervisedMachine (X := createToggleMachine) "A" parkedWithTwo = Some w'
    /\ store w' !! "A"
       = Some (mkStation "A" "A" (Some (nextService parkedWithTwo)) []
                 (replay (X := createToggleMachine) "A" NO [toggleTo (ToString "A"); focusTo (ToString "A")]))
    /\ forall k, k <> "A" -> store w' !! k = store parkedWithTwo !! k.
Proof.
  apply (mount_delivers_parked_events (X := createToggleMachine) "A" parkedWithTwo
           (parked "A" [toggleTo (ToString "A"); focusTo (ToString "A")])
           toggle_contract parkedWithTwo_reachable).
  vm_compute. reflexivity.
Defined.

Lemma input_handlers_are_local_witness :
  (exists w', inputOnChange "A" None "x" parkedWithTwo = Some w'
              /\ forall k, k <> "A" -> store w' !! k = store parkedWithTwo !! k)
  /\ (exists w', inputOnFocus "A" parkedWithTwo = Some w'
                 /\ forall k, k <> "A" -> store w' !! k = store parkedWithTwo !! k)
  /\ (exists w', inputOnBlur "A" parkedWithTwo = Some w'
                 /\ forall k, k <> "A" -> store w' !! k = store parkedWithTwo !! k).
Proof.
  apply (input_handlers_are_local "A" "x" parkedWithTwo). right. reflexivity.
Defined.

Lemma countrySelector_is_stable_witness :
  exists services' stations',
    stationsReducer idle countryLive (toggleTo (ToString "B"))
    = Some (services', stations')
    /\ countrySelector shown stations' = countrySelector shown countryLive.
Proof.
  destruct (stationsReducer idle countryLive (toggleTo (ToString "B")))
    as [[services' stations']|] eqn:E; [|vm_compute in E; discriminate E].
  exists services', stations'. split; [reflexivity|].
  apply (countrySelector_is_stable (X := createToggleMachine) shown (toggleTo (ToString "B")) idle countryLive
           services' stations' E).
  left. cbn. rewrite !elem_of_cons, elem_of_nil. intuition discriminate.
Defined.

(** X26. A send that throws leaves the store behind the interpreter: the
    component of the mounted machine ["A"] sends [TOGGLE] and the reserved
    name [BATCHED] in one array; the router delivers [TOGGLE], the
    interpreter moves to [YES], and the router throws at [BATCHED], so the
    store keeps its state and the station still stores [NO].  The
    application goes on from that state. *)
Theorem throwing_send_leaves_store_behind :
  reachableByCommits mounted
  /\ stored "A" (store mounted) = Some ([], NO)
  /\ icurrent (interpreters mounted 0) = NO
  /\ sendToStore "A" toggleThenBatched mounted = None
  /\ afterSend "A" toggleThenBatched mounted = leftBehind
  /\ reachableByCommits leftBehind
  /\ store leftBehind = store mounted
  /\ stored "A" (store leftBehind) = Some ([], NO)
  /\ icurrent (interpreters leftBehind 0) = YES.
Proof.
  assert (Hallowed : Forall commitAllowed throwing).
  { unfold throwing.
    repeat (apply Forall_cons; split;
            [intros id event Heq; try discriminate Heq;
             injection Heq as <- <-; reflexivity|]).
    constructor. }
  assert (Hmounted : reachableByCommits mounted).
  { apply (commitAll_reachable mounting (initialWorld idle));
      [constructor| |vm_compute; reflexivity].
    apply Forall_cons in Hallowed as [Hm _].
    apply Forall_cons. split; [exact Hm|constructor]. }
  split; [exact Hmounted|].
  split; [vm_compute; reflexivity|].
  split; [reflexivity|].
  split; [vm_compute; reflexivity|].
  split; [vm_compute; reflexivity|].
  split.
  { apply (commitAll_reachable throwing (initialWorld idle));
      [constructor|exact Hallowed|vm_compute; reflexivity]. }
  split; [vm_compute; reflexivity|].
  split; [vm_compute; reflexivity|reflexivity].
Qed.

(** X27. An event addressed to a list that names an inherited property
    without an entry: the router delivers to the identities before that
    name, whose interpreters keep what was sent, throws at the name, and
    never reaches the identities after it; the fold over the copies throws
    alike. *)
Theorem array_target_stops_at_inherited :
  stationsReducer idle twoLive (toggleTo (ToArray ["A"; "toString"; "B"])) = None
  /\ applyInOrder
       (map (fun id => withTo (toggleTo (ToArray ["A"; "toString"; "B"])) (ToString id))
          ["A"; "toString"; "B"])
       (Some (idle, twoLive)) = None
  /\ snd (outcome idle twoLive (toggleTo (ToArray ["A"; "toString"; "B"]))) = None
  /\ icurrent (fst (outcome idle twoLive (toggleTo (ToArray ["A"; "toString"; "B"]))) 0)
     = YES
  /\ icurrent (fst (outcome idle twoLive (toggleTo (ToArray ["A"; "toString"; "B"]))) 1)
     = NO.
Proof. repeat split; vm_compute; reflexivity. Qed.
